(** * Piecewise parabolic reconstruction (src/recon/ppm_simple2.hpp)

    A shallow embedding of the point kernel [PPM] and of the three
    directional sweep drivers [PiecewiseParabolicX1/X2/X3].

    The source computes on [Real], a machine floating-point type.  The
    embedding reads [Real] as the exact rationals [Q]: every operator of
    the source keeps its place and its evaluation order, but rounding,
    overflow, signed zeros and NaN are not modelled.  Equality of
    reconstructed values is therefore [Qeq], written [==].  A second
    transcription of the kernel, [Binary64.PPM], runs the same body on
    binary64 numbers at concrete stencils. *)

From Stdlib Require Import QArith Qabs Qminmax Lqa ZArith Lia Bool.
From Stdlib Require Import PrimFloat.

Local Open Scope Q_scope.

(** ** Scalars and comparisons *)

(** [Real] of the source. *)
Abbreviation Real := Q.

(** [x < y] and [x <= y] of the source, as booleans. *)
Definition Qltb (x y : Real) : bool := negb (Qle_bool y x).
Definition Qleb (x y : Real) : bool := Qle_bool x y.

Definition Qgtb (x y : Real) : bool := Qltb y x.
Definition Qgeb (x y : Real) : bool := Qleb y x.

Local Infix "<?" := Qltb (at level 70, no associativity) : Q_scope.
Local Infix "<=?" := Qleb (at level 70, no associativity) : Q_scope.
Local Infix ">?" := Qgtb (at level 70, no associativity) : Q_scope.
Local Infix ">=?" := Qgeb (at level 70, no associativity) : Q_scope.

(** Modelled from the spec: the macro [SIGN] is used by [PPM] but is
    declared outside the given sources.  The specification fixes it as a
    strict sign function in which zero is a sign bucket of its own; the
    result is an integer, converted to [Real] where the source multiplies
    it with one. *)
Definition SIGN (x : Real) : Z :=
  if 0 <? x then 1%Z else if x <? 0 then (-1)%Z else 0%Z.

(** Implicit conversion [int -> Real] of the source. *)
Definition of_int (z : Z) : Real := inject_Z z.

(** ** The point kernel *)

(** The frame of [PPM] at its exit: every local variable of the source
    with the value it holds when the function returns.  Variables that the
    source reuses ([qa], [qb], [qc], [qd], [qa_tmp], [qb_tmp], [dph],
    [dph_ip1], [qminus], [qplus]) hold their last assignment. *)
Record Locals : Type := mkLocals {
  dd_im1 : Real; dd : Real; dd_ip1 : Real;
  d2qc_im1 : Real; d2qc : Real; d2qc_ip1 : Real;
  dph : Real; dph_ip1 : Real;
  dph_tmp : Real; dphip1_tmp : Real;
  d2qf : Real;
  dqf_minus : Real; dqf_plus : Real;
  qa_tmp : Real; qb_tmp : Real;
  qa : Real; qb : Real; qc : Real; qd : Real; qe : Real;
  rho : Real;
  tmp_m : Real; tmp_p : Real; tmp2_m : Real; tmp2_p : Real;
  qminus : Real; qplus : Real
}.

(** Body of [PPM], statement by statement.  An assignment to a variable
    that already exists is a [let] that shadows it. *)
Definition PPM_locals (q_im2 q_im1 q_i q_ip1 q_ip2 : Real) : Locals :=
  (* CS08 constant used in second derivative limiter *)
  let C2 := 1.25 in
  let c1i := 0.5 in
  let c2i := 0.5 in
  let c3i := 0.5 in
  let c4i := 0.5 in
  let c5i := 1.0 / 6.0 in
  let c6i := -1.0 / 6.0 in
  (* Step 1: interface averages <a>_{i-1/2} and <a>_{i+1/2} *)
  let qa := q_i - q_im1 in
  let qb := q_ip1 - q_i in
  let dd_im1 := c1i * qa + c2i * (q_im1 - q_im2) in
  let dd := c1i * qb + c2i * qa in
  let dd_ip1 := c1i * (q_ip2 - q_ip1) + c2i * qb in
  let dph := (c3i * q_im1 + c4i * q_i) + (c5i * dd_im1 + c6i * dd) in
  let dph_ip1 := (c3i * q_i + c4i * q_ip1) + (c5i * dd + c6i * dd_ip1) in
  (* Step 2a: limit interpolated interface states *)
  let d2qc_im1 := q_im2 + q_i - 2.0 * q_im1 in
  let d2qc := q_im1 + q_ip1 - 2.0 * q_i in
  let d2qc_ip1 := q_i + q_ip2 - 2.0 * q_ip1 in
  (* i-1/2 *)
  let qa_tmp := dph - q_im1 in
  let qb_tmp := q_i - dph in
  let qa := 3.0 * (q_im1 + q_i - 2.0 * dph) in
  let qb := d2qc_im1 in
  let qc := d2qc in
  let qd := 0.0 in
  let qd :=
    if (SIGN qa =? SIGN qb)%Z && (SIGN qa =? SIGN qc)%Z
    then of_int (SIGN qa) *
         Qmin (C2 * Qabs qb) (Qmin (C2 * Qabs qc) (Qabs qa))
    else qd in
  let dph_tmp := 0.5 * (q_im1 + q_i) - qd / 6.0 in
  let dph := if qa_tmp * qb_tmp <? 0.0 then dph_tmp else dph in
  (* i+1/2 *)
  let qa_tmp := dph_ip1 - q_i in
  let qb_tmp := q_ip1 - dph_ip1 in
  let qa := 3.0 * (q_i + q_ip1 - 2.0 * dph_ip1) in
  let qb := d2qc in
  let qc := d2qc_ip1 in
  let qd := 0.0 in
  let qd :=
    if (SIGN qa =? SIGN qb)%Z && (SIGN qa =? SIGN qc)%Z
    then of_int (SIGN qa) *
         Qmin (C2 * Qabs qb) (Qmin (C2 * Qabs qc) (Qabs qa))
    else qd in
  let dphip1_tmp := 0.5 * (q_i + q_ip1) - qd / 6.0 in
  let dph_ip1 := if qa_tmp * qb_tmp <? 0.0 then dphip1_tmp else dph_ip1 in
  let d2qf := 6.0 * (dph + dph_ip1 - 2.0 * q_i) in
  (* Cache Riemann states *)
  let qminus := dph in
  let qplus := dph_ip1 in
  (* Step 3: cell-centered difference stencils *)
  let dqf_minus := q_i - qminus in
  let dqf_plus := qplus - q_i in
  (* Step 4: CS limiters applied to the parabolic interpolant *)
  let qa_tmp := dqf_minus * dqf_plus in
  let qb_tmp := (q_ip1 - q_i) * (q_i - q_im1) in
  let qa := d2qc_im1 in
  let qb := d2qc in
  let qc := d2qc_ip1 in
  let qd := d2qf in
  let qe := 0.0 in
  let qe :=
    if (SIGN qa =? SIGN qb)%Z && (SIGN qa =? SIGN qc)%Z
       && (SIGN qa =? SIGN qd)%Z
    then of_int (SIGN qd) *
         Qmin (Qmin (C2 * Qabs qa) (C2 * Qabs qb))
              (Qmin (C2 * Qabs qc) (Qabs qd))
    else qe in
  (* Check if 2nd derivative is close to roundoff error *)
  let qa := Qmax (Qabs q_im1) (Qabs q_im2) in
  let qb := Qmax (Qmax (Qabs q_i) (Qabs q_ip1)) (Qabs q_ip2) in
  let rho := 0.0 in
  let rho := if Qabs qd >? 1.0e-12 * Qmax qa qb then qe / qd else rho in
  let tmp_m := q_i - rho * dqf_minus in
  let tmp_p := q_i + rho * dqf_plus in
  let tmp2_m := q_i - 2.0 * dqf_plus in
  let tmp2_p := q_i + 2.0 * dqf_minus in
  (* Check for local extrema *)
  let states :=
    if (qa_tmp <=? 0.0) || (qb_tmp <=? 0.0)
    then
      if rho <=? 1.0 - 1.0e-12
      then (tmp_m, tmp_p)
      else (qminus, qplus)
    else
      let qminus :=
        if Qabs dqf_minus >=? 2.0 * Qabs dqf_plus then tmp2_m else qminus in
      let qplus :=
        if Qabs dqf_plus >=? 2.0 * Qabs dqf_minus then tmp2_p else qplus in
      (qminus, qplus) in
  let qminus := fst states in
  let qplus := snd states in
  mkLocals dd_im1 dd dd_ip1 d2qc_im1 d2qc d2qc_ip1 dph dph_ip1
           dph_tmp dphip1_tmp d2qf dqf_minus dqf_plus qa_tmp qb_tmp
           qa qb qc qd qe rho tmp_m tmp_p tmp2_m tmp2_p qminus qplus.

(** [PPM]: the two reference parameters of the source, in the order of
    its signature, [(ql_ip1, qr_i)]. *)
Definition PPM (q_im2 q_im1 q_i q_ip1 q_ip2 : Real) : Real * Real :=
  let L := PPM_locals q_im2 q_im1 q_i q_ip1 q_ip2 in
  (qplus L, qminus L).

Definition ql_ip1 (out : Real * Real) : Real := fst out.
Definition qr_i (out : Real * Real) : Real := snd out.

(** ** The point kernel on binary64

    The same body once more, on the primitive binary64 numbers of the
    kernel, to run the kernel as the machine does.  [Real] of the source
    is taken to be [double]; nothing is proved about this transcription
    beyond its value at concrete stencils. *)

Module Binary64.
Local Open Scope float_scope.
#[local] Set Warnings "-inexact-float".

Definition Real : Type := float.

Definition gtb (x y : Real) : bool := y <? x.
Definition geb (x y : Real) : bool := y <=? x.

Local Infix ">?" := gtb (at level 70, no associativity) : float_scope.
Local Infix ">=?" := geb (at level 70, no associativity) : float_scope.

(** [std::min] and [std::max]. *)
Definition min (a b : Real) : Real := if b <? a then b else a.
Definition max (a b : Real) : Real := if a <? b then b else a.

(** Modelled from the spec: [SIGN], as in the exact embedding. *)
Definition SIGN (x : Real) : Z :=
  if 0 <? x then 1%Z else if x <? 0 then (-1)%Z else 0%Z.

(** Implicit conversion [int -> Real], by counting (exact below 2^53). *)
Definition of_int (z : Z) : Real :=
  match z with
  | Z0 => 0
  | Zpos p => Pos.iter (fun x => x + 1) 0 p
  | Zneg p => Pos.iter (fun x => x - 1) 0 p
  end.

Definition PPM (q_im2 q_im1 q_i q_ip1 q_ip2 : Real) : Real * Real :=
  let C2 := 1.25 in
  let c1i := 0.5 in
  let c2i := 0.5 in
  let c3i := 0.5 in
  let c4i := 0.5 in
  let c5i := 1.0 / 6.0 in
  let c6i := -1.0 / 6.0 in
  let qa := q_i - q_im1 in
  let qb := q_ip1 - q_i in
  let dd_im1 := c1i * qa + c2i * (q_im1 - q_im2) in
  let dd := c1i * qb + c2i * qa in
  let dd_ip1 := c1i * (q_ip2 - q_ip1) + c2i * qb in
  let dph := (c3i * q_im1 + c4i * q_i) + (c5i * dd_im1 + c6i * dd) in
  let dph_ip1 := (c3i * q_i + c4i * q_ip1) + (c5i * dd + c6i * dd_ip1) in
  let d2qc_im1 := q_im2 + q_i - 2.0 * q_im1 in
  let d2qc := q_im1 + q_ip1 - 2.0 * q_i in
  let d2qc_ip1 := q_i + q_ip2 - 2.0 * q_ip1 in
  let qa_tmp := dph - q_im1 in
  let qb_tmp := q_i - dph in
  let qa := 3.0 * (q_im1 + q_i - 2.0 * dph) in
  let qb := d2qc_im1 in
  let qc := d2qc in
  let qd := 0.0 in
  let qd :=
    if (SIGN qa =? SIGN qb)%Z && (SIGN qa =? SIGN qc)%Z
    then of_int (SIGN qa) *
         min (C2 * abs qb) (min (C2 * abs qc) (abs qa))
    else qd in
  let dph_tmp := 0.5 * (q_im1 + q_i) - qd / 6.0 in
  let dph := if qa_tmp * qb_tmp <? 0.0 then dph_tmp else dph in
  let qa_tmp := dph_ip1 - q_i in
  let qb_tmp := q_ip1 - dph_ip1 in
  let qa := 3.0 * (q_i + q_ip1 - 2.0 * dph_ip1) in
  let qb := d2qc in
  let qc := d2qc_ip1 in
  let qd := 0.0 in
  let qd :=
    if (SIGN qa =? SIGN qb)%Z && (SIGN qa =? SIGN qc)%Z
    then of_int (SIGN qa) *
         min (C2 * abs qb) (min (C2 * abs qc) (abs qa))
    else qd in
  let dphip1_tmp := 0.5 * (q_i + q_ip1) - qd / 6.0 in
  let dph_ip1 := if qa_tmp * qb_tmp <? 0.0 then dphip1_tmp else dph_ip1 in
  let d2qf := 6.0 * (dph + dph_ip1 - 2.0 * q_i) in
  let qminus := dph in
  let qplus := dph_ip1 in
  let dqf_minus := q_i - qminus in
  let dqf_plus := qplus - q_i in
  let qa_tmp := dqf_minus * dqf_plus in
  let qb_tmp := (q_ip1 - q_i) * (q_i - q_im1) in
  let qa := d2qc_im1 in
  let qb := d2qc in
  let qc := d2qc_ip1 in
  let qd := d2qf in
  let qe := 0.0 in
  let qe :=
    if (SIGN qa =? SIGN qb)%Z && (SIGN qa =? SIGN qc)%Z
       && (SIGN qa =? SIGN qd)%Z
    then of_int (SIGN qd) *
         min (min (C2 * abs qa) (C2 * abs qb))
             (min (C2 * abs qc) (abs qd))
    else qe in
  let qa := max (abs q_im1) (abs q_im2) in
  let qb := max (max (abs q_i) (abs q_ip1)) (abs q_ip2) in
  let rho := 0.0 in
  let rho := if abs qd >? 1.0e-12 * max qa qb then qe / qd else rho in
  let tmp_m := q_i - rho * dqf_minus in
  let tmp_p := q_i + rho * dqf_plus in
  let tmp2_m := q_i - 2.0 * dqf_plus in
  let tmp2_p := q_i + 2.0 * dqf_minus in
  let states :=
    if (qa_tmp <=? 0.0) || (qb_tmp <=? 0.0)
    then
      if rho <=? 1.0 - 1.0e-12
      then (tmp_m, tmp_p)
      else (qminus, qplus)
    else
      let qminus :=
        if abs dqf_minus >=? 2.0 * abs dqf_plus then tmp2_m else qminus in
      let qplus :=
        if abs dqf_plus >=? 2.0 * abs dqf_minus then tmp2_p else qplus in
      (qminus, qplus) in
  let qminus := fst states in
  let qplus := snd states in
  (qplus, qminus).
End Binary64.

(** ** The directional sweep drivers *)

(** Modelled from the spec: the field array type [T] is a template
    parameter of the drivers, declared outside the given sources.  The
    specification describes it as a read-only container indexed by
    (variable, k, j, i) whose fourth extent is the number of variables.
    Indices are the source's [int], read as [Z]. *)
Record FieldArray : Type := mkField {
  GetDim : nat -> Z;
  elem : Z -> Z -> Z -> Z -> Real
}.

(** Modelled from the spec: [ScratchPad2D<Real>] is a 2-dimensional
    buffer indexed by (variable, i); [store] is the assignment through the
    reference that its call operator returns. *)
Definition ScratchPad2D : Type := Z -> Z -> Real.

Definition store (buf : ScratchPad2D) (n i : Z) (v : Real) : ScratchPad2D :=
  fun n' i' => if ((n' =? n) && (i' =? i))%Z then v else buf n' i'.

(** The two output buffers, threaded through the loops. *)
Definition Buffers : Type := (ScratchPad2D * ScratchPad2D)%type.

(** [body lo], [body (lo+1)], ... applied [count] times in index order. *)
Fixpoint for_count (count : nat) (lo : Z) (body : Z -> Buffers -> Buffers)
    (s : Buffers) : Buffers :=
  match count with
  | O => s
  | S count' => for_count count' (lo + 1)%Z body (body lo s)
  end.

(** [for (int n = lo; n < hi; ++n) body(n)]. *)
Definition for_lt (lo hi : Z) (body : Z -> Buffers -> Buffers)
    (s : Buffers) : Buffers :=
  for_count (Z.to_nat (hi - lo)) lo body s.

(** Modelled from the spec: [parthenon::par_for_inner(member, il, iu, f)]
    is declared outside the given sources; the specification has it call
    [f] once for every index of the closed range [il..iu], every call
    writing cells no other call touches, so the calls are run here in
    index order. *)
Definition par_for_inner (il iu : Z) (body : Z -> Buffers -> Buffers)
    (s : Buffers) : Buffers :=
  for_count (Z.to_nat (iu - il + 1)) il body s.

(** One call of [PPM] with its two outputs bound to buffer cells. *)
Definition PPM_into (q_im2 q_im1 q_i q_ip1 q_ip2 : Real)
    (nl il : Z) (nr ir : Z) (s : Buffers) : Buffers :=
  let '(ql, qr) := s in
  let out := PPM q_im2 q_im1 q_i q_ip1 q_ip2 in
  (store ql nl il (ql_ip1 out), store qr nr ir (qr_i out)).

Definition PiecewiseParabolicX1 (k j il iu : Z) (q : FieldArray)
    (ql qr : ScratchPad2D) : Buffers :=
  let nvar := GetDim q 4 in
  for_lt 0 nvar (fun n =>
    par_for_inner il iu (fun i =>
      PPM_into (elem q n k j (i - 2)) (elem q n k j (i - 1)) (elem q n k j i)
               (elem q n k j (i + 1)) (elem q n k j (i + 2))
               n (i + 1) n i)) (ql, qr).

Definition PiecewiseParabolicX2 (k j il iu : Z) (q : FieldArray)
    (ql_jp1 qr_j : ScratchPad2D) : Buffers :=
  let nvar := GetDim q 4 in
  for_lt 0 nvar (fun n =>
    par_for_inner il iu (fun i =>
      PPM_into (elem q n k (j - 2) i) (elem q n k (j - 1) i) (elem q n k j i)
               (elem q n k (j + 1) i) (elem q n k (j + 2) i)
               n i n i)) (ql_jp1, qr_j).

Definition PiecewiseParabolicX3 (k j il iu : Z) (q : FieldArray)
    (ql_kp1 qr_k : ScratchPad2D) : Buffers :=
  let nvar := GetDim q 4 in
  for_lt 0 nvar (fun n =>
    par_for_inner il iu (fun i =>
      PPM_into (elem q n (k - 2) j i) (elem q n (k - 1) j i) (elem q n k j i)
               (elem q n (k + 1) j i) (elem q n (k + 2) j i)
               n i n i)) (ql_kp1, qr_k).

(** ** The stages of the kernel, one by one

    The definitions below cut the body of [PPM] into the pieces the
    proofs reason about.  Each is the text of the corresponding lines of
    [PPM_locals] with its free variables as parameters; the lemmas of the
    section "Unfolding equations" tie them back to [PPM_locals] by
    computation. *)

(** Second difference [l + r - 2.0 * m] (the three [d2qc] lines). *)
Definition second_diff (l m r : Real) : Real := l + r - 2.0 * m.

(** Unlimited interface averages of step 1. *)
Definition dph_unlimited (q_im2 q_im1 q_i q_ip1 : Real) : Real :=
  (0.5 * q_im1 + 0.5 * q_i)
  + (1.0 / 6.0 * (0.5 * (q_i - q_im1) + 0.5 * (q_im1 - q_im2))
     + -1.0 / 6.0 * (0.5 * (q_ip1 - q_i) + 0.5 * (q_i - q_im1))).

Definition dph_ip1_unlimited (q_im1 q_i q_ip1 q_ip2 : Real) : Real :=
  (0.5 * q_i + 0.5 * q_ip1)
  + (1.0 / 6.0 * (0.5 * (q_ip1 - q_i) + 0.5 * (q_i - q_im1))
     + -1.0 / 6.0 * (0.5 * (q_ip2 - q_ip1) + 0.5 * (q_ip1 - q_i))).

(** The limited curvature [qd] of step 2a. *)
Definition limited_face (qa qb qc : Real) : Real :=
  if (SIGN qa =? SIGN qb)%Z && (SIGN qa =? SIGN qc)%Z
  then of_int (SIGN qa) *
       Qmin (1.25 * Qabs qb) (Qmin (1.25 * Qabs qc) (Qabs qa))
  else 0.0.

(** Step 2a for the face between the cells [ql] and [qr]: [f] is the
    unlimited face value, [d2l] and [d2r] the second differences of the
    two cells. *)
Definition face_value (ql qr f d2l d2r : Real) : Real :=
  if (f - ql) * (qr - f) <? 0.0
  then 0.5 * (ql + qr)
       - limited_face (3.0 * (ql + qr - 2.0 * f)) d2l d2r / 6.0
  else f.

(** The limited curvature [qe] of step 4. *)
Definition limited_cell (qa qb qc qd : Real) : Real :=
  if (SIGN qa =? SIGN qb)%Z && (SIGN qa =? SIGN qc)%Z
     && (SIGN qa =? SIGN qd)%Z
  then of_int (SIGN qd) *
       Qmin (Qmin (1.25 * Qabs qa) (1.25 * Qabs qb))
            (Qmin (1.25 * Qabs qc) (Qabs qd))
  else 0.0.

(** The value scale of the stencil used by the roundoff check. *)
Definition stencil_scale (q_im2 q_im1 q_i q_ip1 q_ip2 : Real) : Real :=
  Qmax (Qmax (Qabs q_im1) (Qabs q_im2))
       (Qmax (Qmax (Qabs q_i) (Qabs q_ip1)) (Qabs q_ip2)).

(** The test that guards the division [qe / qd], on the exit frame. *)
Definition divides (L : Locals) : bool :=
  Qabs (qd L) >? 1.0e-12 * Qmax (qa L) (qb L).

(** The limited ratio of step 4. *)
Definition ratio (scale qe qd : Real) : Real :=
  if Qabs qd >? 1.0e-12 * scale then qe / qd else 0.0.

(** The two tests of the final branch of step 4, on the exit frame. *)
Definition extremum_detected (L : Locals) : bool :=
  (qa_tmp L <=? 0.0) || (qb_tmp L <=? 0.0).

Definition rescale_applied (L : Locals) : bool :=
  extremum_detected L && (rho L <=? 1.0 - 1.0e-12).

Definition clips_minus (L : Locals) : bool :=
  Qabs (dqf_minus L) >=? 2.0 * Qabs (dqf_plus L).

Definition clips_plus (L : Locals) : bool :=
  Qabs (dqf_plus L) >=? 2.0 * Qabs (dqf_minus L).



(** ** Vocabulary of the statements *)

(** The three buckets of [SIGN]. *)
Variant SIGN_spec (x : Real) : Z -> Prop :=
  | SIGN_pos : 0 < x -> SIGN_spec x 1%Z
  | SIGN_neg : x < 0 -> SIGN_spec x (-1)%Z
  | SIGN_zero : x == 0 -> SIGN_spec x 0%Z.


(** A face value between its two cells. *)
Definition face_between (ql qr f : Real) : Prop :=
  Qmin ql qr <= f /\ f <= Qmax ql qr.


(** ** The drivers as one loop nest *)

(** The three axes of the field array. *)
Variant Axis : Type := AxisX1 | AxisX2 | AxisX3.

(** The cell at displacement [o] from (k, j, i) along the axis. *)
Definition stencil_at (ax : Axis) (q : FieldArray) (n k j i o : Z) : Real :=
  match ax with
  | AxisX1 => elem q n k j (i + o)
  | AxisX2 => elem q n k (j + o) i
  | AxisX3 => elem q n (k + o) j i
  end.

(** Where the left state of cell [i] goes in the left buffer, relative
    to [i]. *)
Definition left_shift (ax : Axis) : Z :=
  match ax with AxisX1 => 1 | AxisX2 | AxisX3 => 0 end%Z.

(** [PPM] on the five cells around (k, j, i) along the axis. *)
Definition PPM_along (ax : Axis) (q : FieldArray) (n k j i : Z)
    : Real * Real :=
  PPM (stencil_at ax q n k j i (-2)) (stencil_at ax q n k j i (-1))
      (stencil_at ax q n k j i 0) (stencil_at ax q n k j i 1)
      (stencil_at ax q n k j i 2).

(** The one loop nest the three drivers instantiate. *)
Definition sweep (ax : Axis) (k j il iu : Z) (q : FieldArray)
    (s : Buffers) : Buffers :=
  for_lt 0 (GetDim q 4) (fun n =>
    par_for_inner il iu (fun i s =>
      (store (fst s) n (i + left_shift ax) (ql_ip1 (PPM_along ax q n k j i)),
       store (snd s) n i (qr_i (PPM_along ax q n k j i))))) s.

Definition driver (ax : Axis) :
    Z -> Z -> Z -> Z -> FieldArray -> ScratchPad2D -> ScratchPad2D -> Buffers :=
  match ax with
  | AxisX1 => PiecewiseParabolicX1
  | AxisX2 => PiecewiseParabolicX2
  | AxisX3 => PiecewiseParabolicX3
  end.

(** One line of data per variable, laid along one axis of the field. *)
Definition line_field (ax : Axis) (nvar : Z) (f : Z -> Z -> Real)
    : FieldArray :=
  mkField (fun _ => nvar)
          (fun n k j i => f n match ax with
                              | AxisX1 => i | AxisX2 => j | AxisX3 => k
                              end).

(** A field of one variable whose value is the square of the index [j],
    and an all-zero buffer. *)
Definition squares_along_j : FieldArray :=
  mkField (fun _ => 1%Z) (fun n k j i => inject_Z (j * j)).

Definition zero_buffer : ScratchPad2D := fun _ _ => 0.

(** The test of step 4 that the four curvature estimates share one
    sign, on the exit frame. *)
Definition smooth (L : Locals) : bool :=
  (SIGN (d2qc_im1 L) =? SIGN (d2qc L))%Z
  && (SIGN (d2qc_im1 L) =? SIGN (d2qc_ip1 L))%Z
  && (SIGN (d2qc_im1 L) =? SIGN (d2qf L))%Z.

(** A field with two of its axes exchanged. *)
Definition transpose_kj (q : FieldArray) : FieldArray :=
  mkField (GetDim q) (fun n k j i => elem q n j k i).

Definition transpose_ji (q : FieldArray) : FieldArray :=
  mkField (GetDim q) (fun n k j i => elem q n k i j).

(** The field of squares along [j], set to zero beyond two cells from
    row 0. *)
Definition squares_clipped : FieldArray :=
  mkField (fun _ => 1%Z)
          (fun n k j i => if (Z.abs j <=? 2)%Z then inject_Z (j * j) else 0).

(** ** Unfolding equations *)

Section Equations.
Variables q_im2 q_im1 q_i q_ip1 q_ip2 : Real.
Local Abbreviation L := (PPM_locals q_im2 q_im1 q_i q_ip1 q_ip2).

Lemma d2qc_im1_eq : d2qc_im1 L = second_diff q_im2 q_im1 q_i.
Proof. reflexivity. Qed.

Lemma d2qc_eq : d2qc L = second_diff q_im1 q_i q_ip1.
Proof. reflexivity. Qed.

Lemma d2qc_ip1_eq : d2qc_ip1 L = second_diff q_i q_ip1 q_ip2.
Proof. reflexivity. Qed.

Lemma dph_eq :
  dph L = face_value q_im1 q_i (dph_unlimited q_im2 q_im1 q_i q_ip1)
                     (d2qc_im1 L) (d2qc L).
Proof. reflexivity. Qed.

Lemma dph_ip1_eq :
  dph_ip1 L = face_value q_i q_ip1 (dph_ip1_unlimited q_im1 q_i q_ip1 q_ip2)
                         (d2qc L) (d2qc_ip1 L).
Proof. reflexivity. Qed.

Lemma d2qf_eq : d2qf L = 6.0 * (dph L + dph_ip1 L - 2.0 * q_i).
Proof. reflexivity. Qed.

Lemma dqf_minus_eq : dqf_minus L = q_i - dph L.
Proof. reflexivity. Qed.

Lemma dqf_plus_eq : dqf_plus L = dph_ip1 L - q_i.
Proof. reflexivity. Qed.

Lemma qa_tmp_eq : qa_tmp L = dqf_minus L * dqf_plus L.
Proof. reflexivity. Qed.

Lemma qb_tmp_eq : qb_tmp L = (q_ip1 - q_i) * (q_i - q_im1).
Proof. reflexivity. Qed.

Lemma qd_eq : qd L = d2qf L.
Proof. reflexivity. Qed.

Lemma qe_eq :
  qe L = limited_cell (d2qc_im1 L) (d2qc L) (d2qc_ip1 L) (d2qf L).
Proof. reflexivity. Qed.

Lemma scale_eq :
  Qmax (qa L) (qb L) = stencil_scale q_im2 q_im1 q_i q_ip1 q_ip2.
Proof. reflexivity. Qed.

Lemma rho_eq : rho L = if divides L then qe L / qd L else 0.0.
Proof. reflexivity. Qed.

Lemma rho_ratio :
  rho L = ratio (stencil_scale q_im2 q_im1 q_i q_ip1 q_ip2) (qe L) (d2qf L).
Proof. reflexivity. Qed.

Lemma tmp_m_eq : tmp_m L = q_i - rho L * dqf_minus L.
Proof. reflexivity. Qed.

Lemma tmp_p_eq : tmp_p L = q_i + rho L * dqf_plus L.
Proof. reflexivity. Qed.

Lemma tmp2_m_eq : tmp2_m L = q_i - 2.0 * dqf_plus L.
Proof. reflexivity. Qed.

Lemma tmp2_p_eq : tmp2_p L = q_i + 2.0 * dqf_minus L.
Proof. reflexivity. Qed.

Lemma states_eq :
  (qminus L, qplus L) =
  if extremum_detected L
  then if rho L <=? 1.0 - 1.0e-12 then (tmp_m L, tmp_p L)
       else (dph L, dph_ip1 L)
  else (if clips_minus L then tmp2_m L else dph L,
        if clips_plus L then tmp2_p L else dph_ip1 L).
Proof.
  set (rhs := if extremum_detected L then _ else _).
  change (qminus L) with (fst rhs). change (qplus L) with (snd rhs).
  now destruct rhs.
Qed.

Lemma qminus_eq :
  qminus L =
  if extremum_detected L
  then if rho L <=? 1.0 - 1.0e-12 then tmp_m L else dph L
  else if clips_minus L then tmp2_m L else dph L.
Proof.
  change (qminus L) with (fst (qminus L, qplus L)). rewrite states_eq.
  destruct (extremum_detected L); [destruct (_ <=? _) |]; reflexivity.
Qed.

Lemma qplus_eq :
  qplus L =
  if extremum_detected L
  then if rho L <=? 1.0 - 1.0e-12 then tmp_p L else dph_ip1 L
  else if clips_plus L then tmp2_p L else dph_ip1 L.
Proof.
  change (qplus L) with (snd (qminus L, qplus L)). rewrite states_eq.
  destruct (extremum_detected L); [destruct (_ <=? _) |]; reflexivity.
Qed.


End Equations.

(** ** Comparisons and signs *)

Lemma Qltb_true x y : (x <? y) = true <-> x < y.
Proof.
  unfold Qltb. rewrite negb_true_iff, <- not_true_iff_false, Qle_bool_iff.
  split; [apply Qnot_le_lt | apply Qlt_not_le].
Qed.

Lemma Qltb_false x y : (x <? y) = false <-> y <= x.
Proof. unfold Qltb. now rewrite negb_false_iff, Qle_bool_iff. Qed.

Lemma Qleb_true x y : (x <=? y) = true <-> x <= y.
Proof. apply Qle_bool_iff. Qed.

Lemma Qleb_false x y : (x <=? y) = false <-> y < x.
Proof.
  unfold Qleb. rewrite <- not_true_iff_false, Qle_bool_iff.
  split; [apply Qnot_le_lt | apply Qlt_not_le].
Qed.

Lemma Qgtb_true x y : (x >? y) = true <-> y < x.
Proof. apply Qltb_true. Qed.

Lemma Qgtb_false x y : (x >? y) = false <-> x <= y.
Proof. apply Qltb_false. Qed.

Lemma Qgeb_true x y : (x >=? y) = true <-> y <= x.
Proof. apply Qleb_true. Qed.

Lemma Qgeb_false x y : (x >=? y) = false <-> x < y.
Proof. apply Qleb_false. Qed.

#[export] Instance Qltb_Proper : Proper (Qeq ==> Qeq ==> eq) Qltb.
Proof. intros x x' Hx y y' Hy. unfold Qltb. now rewrite Hx, Hy. Qed.

#[export] Instance Qleb_Proper : Proper (Qeq ==> Qeq ==> eq) Qleb.
Proof. intros x x' Hx y y' Hy. unfold Qleb. now rewrite Hx, Hy. Qed.

#[export] Instance Qgtb_Proper : Proper (Qeq ==> Qeq ==> eq) Qgtb.
Proof. intros x x' Hx y y' Hy. unfold Qgtb. now rewrite Hx, Hy. Qed.

#[export] Instance Qgeb_Proper : Proper (Qeq ==> Qeq ==> eq) Qgeb.
Proof. intros x x' Hx y y' Hy. unfold Qgeb. now rewrite Hx, Hy. Qed.

#[export] Instance SIGN_Proper : Proper (Qeq ==> eq) SIGN.
Proof.
  intros x x' Hx. unfold SIGN.
  assert (E1 : (0 <? x) = (0 <? x')) by now rewrite Hx.
  assert (E2 : (x <? 0) = (x' <? 0)) by now rewrite Hx.
  now rewrite E1, E2.
Qed.

(** Turn every boolean comparison of the goal into the order fact it
    decides. *)
Ltac qcompare :=
  repeat match goal with
  | |- context [Qltb ?x ?y] =>
      let E := fresh "E" in
      destruct (Qltb x y) eqn:E;
      [apply Qltb_true in E | apply Qltb_false in E]
  | |- context [Qleb ?x ?y] =>
      let E := fresh "E" in
      destruct (Qleb x y) eqn:E;
      [apply Qleb_true in E | apply Qleb_false in E]
  end.

(** Linear arithmetic on [Q] after the divisions by the literal [6.0] are
    turned into multiplications. *)
Ltac qconst :=
  unfold Qdiv in *;
  repeat match goal with
  | |- context [/ (?n # ?d)] =>
      let r := eval cbv in (/ (n # d)) in change (/ (n # d)) with r in *
  | _ : context [/ (?n # ?d)] |- _ =>
      let r := eval cbv in (/ (n # d)) in change (/ (n # d)) with r in *
  end.

Ltac qlra := qconst; lra.

Ltac qnra := qconst; nra.

Lemma SIGN_cases x : SIGN_spec x (SIGN x).
Proof.
  unfold SIGN. qcompare; constructor; qlra.
Qed.

(** ** Congruence of the stages *)

Lemma if_Qeq (b b' : bool) (x x' y y' : Real) :
  b = b' -> x == x' -> y == y' ->
  (if b then x else y) == (if b' then x' else y').
Proof. intros -> Hx Hy. now destruct b'. Qed.



Lemma Qmin_swap x y z : Qmin x (Qmin y z) == Qmin y (Qmin x z).
Proof. now rewrite !Q.min_assoc, (Q.min_comm x y). Qed.

(** [limited_face] respects [==] and does not tell its two neighbouring
    second differences apart. *)
Lemma limited_face_swap qa qb qc qa' qb' qc' :
  qa == qa' -> qb == qc' -> qc == qb' ->
  limited_face qa qb qc == limited_face qa' qb' qc'.
Proof.
  intros Ha Hb Hc. unfold limited_face. apply if_Qeq.
  - rewrite (SIGN_Proper _ _ Ha), (SIGN_Proper _ _ Hb), (SIGN_Proper _ _ Hc).
    apply andb_comm.
  - rewrite (SIGN_Proper _ _ Ha), Ha, Hb, Hc.
    now rewrite Qmin_swap.
  - reflexivity.
Qed.

Lemma face_value_swap ql qr f d2l d2r ql' qr' f' d2l' d2r' :
  ql == qr' -> qr == ql' -> f == f' -> d2l == d2r' -> d2r == d2l' ->
  face_value ql qr f d2l d2r == face_value ql' qr' f' d2l' d2r'.
Proof.
  intros Hl Hr Hf H2l H2r. unfold face_value. apply if_Qeq.
  - apply Qltb_Proper; [rewrite Hl, Hr, Hf; ring | reflexivity].
  - apply Qplus_comp.
    + rewrite Hl, Hr. ring.
    + apply Qopp_comp, Qmult_comp; [| reflexivity].
      apply limited_face_swap; trivial. rewrite Hl, Hr, Hf. ring.
  - exact Hf.
Qed.











(** ** Elimination of [Qabs], [Qmin] and [Qmax] *)

Lemma Qabs_cases x : (0 <= x /\ Qabs x == x) \/ (x <= 0 /\ Qabs x == - x).
Proof.
  destruct (Qlt_le_dec x 0) as [H|H].
  - right. split; [qlra | apply Qabs_neg; qlra].
  - left. split; [qlra | now apply Qabs_pos].
Qed.

(** Replace every [Qabs], [Qmin] and [Qmax] by a fresh number together
    with the order facts that define it, innermost first. *)
Ltac qelim :=
  repeat match goal with
  | |- context [Qabs ?x] =>
      lazymatch x with
      | context [Qabs _] => fail
      | context [Qmin _ _] => fail
      | context [Qmax _ _] => fail
      | _ => idtac
      end;
      let v := fresh "v" in
      destruct (Qabs_cases x) as [[? ?]|[? ?]];
      set (v := Qabs x) in *; clearbody v
  | |- context [Qmin ?x ?y] =>
      lazymatch x with
      | context [Qabs _] => fail
      | context [Qmin _ _] => fail
      | context [Qmax _ _] => fail
      | _ => idtac
      end;
      lazymatch y with
      | context [Qabs _] => fail
      | context [Qmin _ _] => fail
      | context [Qmax _ _] => fail
      | _ => idtac
      end;
      let v := fresh "v" in
      destruct (Q.min_spec x y) as [[? ?]|[? ?]];
      set (v := Qmin x y) in *; clearbody v
  | |- context [Qmax ?x ?y] =>
      lazymatch x with
      | context [Qabs _] => fail
      | context [Qmin _ _] => fail
      | context [Qmax _ _] => fail
      | _ => idtac
      end;
      lazymatch y with
      | context [Qabs _] => fail
      | context [Qmin _ _] => fail
      | context [Qmax _ _] => fail
      | _ => idtac
      end;
      let v := fresh "v" in
      destruct (Q.max_spec x y) as [[? ?]|[? ?]];
      set (v := Qmax x y) in *; clearbody v
  end.

(** ** Step 2a: the face values *)

Lemma face_value_keep ql qr f d2l d2r :
  0 <= (f - ql) * (qr - f) -> face_value ql qr f d2l d2r = f.
Proof.
  intros H. unfold face_value.
  destruct (Qltb _ _) eqn:E; [apply Qltb_true in E; qlra | reflexivity].
Qed.

(** ** Step 4: the ratio *)

Lemma stencil_scale_nonneg a b c d e : 0 <= stencil_scale a b c d e.
Proof. unfold stencil_scale. qelim; qlra. Qed.

Lemma ratio_guarded scale qe qd :
  Qabs qd <= 1.0e-12 * scale -> ratio scale qe qd = 0.0.
Proof.
  intros H. unfold ratio.
  destruct (Qgtb _ _) eqn:E; [apply Qgtb_true in E; qlra | reflexivity].
Qed.

(** ** Affine data *)

(** On a stencil sampled from [alpha + beta * j] step 2a keeps both
    unlimited face values, the roundoff check sets the ratio to zero and
    neither branch of step 4 moves the states. *)
Lemma PPM_locals_affine a b c d e alpha beta :
  a == alpha + -(2) * beta -> b == alpha + -(1) * beta ->
  c == alpha + 0 * beta ->
  d == alpha + 1 * beta -> e == alpha + 2 * beta ->
  qminus (PPM_locals a b c d e) == alpha - beta / 2
  /\ qplus (PPM_locals a b c d e) == alpha + beta / 2.
Proof.
  intros Ha Hb Hc Hd He. ring_simplify in Hb. ring_simplify in Hc.
  ring_simplify in Hd.
  set (L := PPM_locals a b c d e).
  assert (Hum : dph_unlimited a b c d == alpha - beta / 2)
    by (unfold dph_unlimited; qlra).
  assert (Hup : dph_ip1_unlimited b c d e == alpha + beta / 2)
    by (unfold dph_ip1_unlimited; qlra).
  assert (Hm : dph L = dph_unlimited a b c d).
  { unfold L. rewrite dph_eq. apply face_value_keep. rewrite Hum, Hb, Hc.
    setoid_replace ((alpha - beta / 2 - (alpha - beta))
                    * (alpha - (alpha - beta / 2)))
      with ((beta / 2) * (beta / 2)) by field.
    qnra. }
  assert (Hp : dph_ip1 L = dph_ip1_unlimited b c d e).
  { unfold L. rewrite dph_ip1_eq. apply face_value_keep. rewrite Hup, Hc, Hd.
    setoid_replace ((alpha + beta / 2 - alpha)
                    * (alpha + beta - (alpha + beta / 2)))
      with ((beta / 2) * (beta / 2)) by field.
    qnra. }
  assert (Hdm : dqf_minus L == beta / 2)
    by (unfold L; rewrite dqf_minus_eq; fold L; rewrite Hm, Hum, Hc; field).
  assert (Hdp : dqf_plus L == beta / 2)
    by (unfold L; rewrite dqf_plus_eq; fold L; rewrite Hp, Hup, Hc; field).
  assert (Hf : d2qf L == 0)
    by (unfold L; rewrite d2qf_eq; fold L; rewrite Hm, Hp, Hum, Hup, Hc; field).
  assert (Hrho : rho L = 0.0).
  { unfold L. rewrite rho_ratio. apply ratio_guarded. fold L. rewrite Hf.
    pose proof (stencil_scale_nonneg a b c d e). change (Qabs 0) with 0. qlra. }
  assert (Hqa : qa_tmp L == (beta / 2) * (beta / 2))
    by (unfold L; rewrite qa_tmp_eq; fold L; now rewrite Hdm, Hdp).
  assert (Hqb : qb_tmp L == beta * beta)
    by (unfold L; rewrite qb_tmp_eq; rewrite Hb, Hc, Hd; ring).
  assert (Hext : extremum_detected L = true -> beta == 0).
  { unfold extremum_detected. rewrite orb_true_iff, !Qleb_true, Hqa, Hqb.
    intros [H|H]; qnra. }
  assert (Hclm : extremum_detected L = false -> clips_minus L = false).
  { unfold extremum_detected, clips_minus.
    rewrite orb_false_iff, !Qleb_false, Qgeb_false, Hqa, Hdm, Hdp.
    intros [H _]. assert (0 < Qabs (beta / 2)); [| qlra].
    destruct (Qabs_cases (beta / 2)) as [[? ->]|[? ->]]; qnra. }
  assert (Hclp : extremum_detected L = false -> clips_plus L = false).
  { unfold extremum_detected, clips_plus.
    rewrite orb_false_iff, !Qleb_false, Qgeb_false, Hqa, Hdm, Hdp.
    intros [H _]. assert (0 < Qabs (beta / 2)); [| qlra].
    destruct (Qabs_cases (beta / 2)) as [[? ->]|[? ->]]; qnra. }
  subst L. rewrite qminus_eq, qplus_eq, tmp_m_eq, tmp_p_eq, Hrho.
  change (0.0 <=? 1.0 - 1.0e-12) with true. cbv iota.
  destruct (extremum_detected _).
  - generalize (dqf_minus (PPM_locals a b c d e)),
      (dqf_plus (PPM_locals a b c d e)). intros x y.
    rewrite (Hext eq_refl), Hc. split; field.
  - rewrite Hclm, Hclp, Hm, Hp, Hum, Hup by reflexivity. split; reflexivity.
Qed.


(** C2 (constant reproduction): on five identical values [c] both output
    states are [c]. *)
Theorem PPM_constant_reproduction (c : Real) :
  ql_ip1 (PPM c c c c c) == c /\ qr_i (PPM c c c c c) == c.
Proof.
  unfold ql_ip1, qr_i, PPM. cbn [fst snd].
  assert (H : forall k, c == c + k * 0) by (intros; ring).
  destruct (PPM_locals_affine c c c c c c 0 (H (-(2))) (H (-(1))) (H 0)
              (H 1) (H 2)) as [Hm Hp].
  rewrite Hm, Hp. split; field.
Qed.

(** C8 (regression vector): on the stencil (1.0, 1.0, 1.0, 2.0, 3.0) the
    right state is at most 1.0 and the left state at least 1.0. *)
Theorem PPM_ramp_vector :
  qr_i (PPM 1.0 1.0 1.0 2.0 3.0) <= 1.0
  /\ 1.0 <= ql_ip1 (PPM 1.0 1.0 1.0 2.0 3.0).
Proof. split; vm_compute; discriminate. Qed.

(** The values behind C8: both states are the cell average. *)
Example PPM_ramp_values :
  Qred (ql_ip1 (PPM 1.0 1.0 1.0 2.0 3.0)) = 1
  /\ Qred (qr_i (PPM 1.0 1.0 1.0 2.0 3.0)) = 1.
Proof. split; vm_compute; reflexivity. Qed.

(** ** Step 4: the limited curvature and the ratio are a contraction *)

Lemma limited_cell_spec qa qb qc qd :
  exists m, 0 <= m /\ m <= Qabs qd
            /\ limited_cell qa qb qc qd == of_int (SIGN qd) * m.
Proof.
  unfold limited_cell. destruct (_ && _).
  - eexists. split; [| split; [| reflexivity]].
    + pose proof (Qabs_nonneg qa). pose proof (Qabs_nonneg qb).
      pose proof (Qabs_nonneg qc). pose proof (Qabs_nonneg qd).
      repeat apply Q.min_glb; qlra.
    + eapply Qle_trans; apply Q.le_min_r.
  - exists 0. pose proof (Qabs_nonneg qd). repeat split; qlra.
Qed.

Lemma Qdiv_unit p q : 0 <= p -> p <= q -> 0 < q -> 0 <= p / q /\ p / q <= 1.
Proof.
  intros Hp Hpq Hq. split.
  - apply Qle_shift_div_l; qlra.
  - apply Qle_shift_div_r; qlra.
Qed.

Lemma ratio_unit scale qe qd m :
  0 <= scale -> 0 <= m -> m <= Qabs qd -> qe == of_int (SIGN qd) * m ->
  0 <= ratio scale qe qd /\ ratio scale qe qd <= 1.
Proof.
  intros Hs Hm Hmd He. unfold ratio.
  destruct (Qgtb _ _) eqn:E; [apply Qgtb_true in E | qlra].
  rewrite He. destruct (SIGN_cases qd) as [H|H|H]; unfold of_int.
  - rewrite Qabs_pos in Hmd by qlra.
    setoid_replace (inject_Z 1 * m / qd) with (m / qd)
      by (change (inject_Z 1) with 1; field; qlra).
    apply Qdiv_unit; qlra.
  - rewrite Qabs_neg in Hmd by qlra.
    setoid_replace (inject_Z (-1) * m / qd) with (m / - qd)
      by (change (inject_Z (-1)) with (-(1)); field; qlra).
    apply Qdiv_unit; qlra.
  - rewrite H in E. change (Qabs 0) with 0 in E. qlra.
Qed.

Section Contraction.
Variables q_im2 q_im1 q_i q_ip1 q_ip2 : Real.
Local Abbreviation L := (PPM_locals q_im2 q_im1 q_i q_ip1 q_ip2).

Lemma rho_unit : 0 <= rho L /\ rho L <= 1.
Proof.
  rewrite rho_ratio, qe_eq.
  destruct (limited_cell_spec (d2qc_im1 L) (d2qc L) (d2qc_ip1 L) (d2qf L))
    as (m & Hm & Hmd & He).
  apply (ratio_unit _ _ _ m); trivial. apply stencil_scale_nonneg.
Qed.

(** The division of step 4 is only performed on a nonzero divisor. *)
Lemma divides_nonzero : divides L = true -> ~ qd L == 0.
Proof.
  unfold divides. rewrite Qgtb_true, scale_eq. intros H Hz.
  rewrite Hz in H. change (Qabs 0) with 0 in H.
  pose proof (stencil_scale_nonneg q_im2 q_im1 q_i q_ip1 q_ip2). qlra.
Qed.

(** Both final states lie between the cell average and the face value
    that left step 2a. *)
Lemma qminus_between :
  Qmin (dph L) q_i <= qminus L /\ qminus L <= Qmax (dph L) q_i.
Proof.
  rewrite qminus_eq, tmp_m_eq, tmp2_m_eq.
  unfold extremum_detected, clips_minus.
  rewrite qa_tmp_eq, dqf_minus_eq, dqf_plus_eq.
  destruct rho_unit as [Hr0 Hr1]. revert Hr0 Hr1.
  generalize (rho L) (dph L) (dph_ip1 L) (qb_tmp L). intros r fm fp pb Hr0 Hr1.
  destruct (_ || _) eqn:Eext.
  - destruct (r <=? _); qelim; qnra.
  - apply orb_false_iff in Eext. destruct Eext as [Ea _].
    apply Qleb_false in Ea.
    destruct (_ >=? _) eqn:Ec; [apply Qgeb_true in Ec |]; revert Ec;
      qelim; intros; qnra.
Qed.

Lemma qplus_between :
  Qmin q_i (dph_ip1 L) <= qplus L /\ qplus L <= Qmax q_i (dph_ip1 L).
Proof.
  rewrite qplus_eq, tmp_p_eq, tmp2_p_eq.
  unfold extremum_detected, clips_plus.
  rewrite qa_tmp_eq, dqf_minus_eq, dqf_plus_eq.
  destruct rho_unit as [Hr0 Hr1]. revert Hr0 Hr1.
  generalize (rho L) (dph L) (dph_ip1 L) (qb_tmp L). intros r fm fp pb Hr0 Hr1.
  destruct (_ || _) eqn:Eext.
  - destruct (r <=? _); qelim; qnra.
  - apply orb_false_iff in Eext. destruct Eext as [Ea _].
    apply Qleb_false in Ea.
    destruct (_ >=? _) eqn:Ec; [apply Qgeb_true in Ec |]; revert Ec;
      qelim; intros; qnra.
Qed.

(** In the no-extremum branch the two overshoot tests exclude each
    other. *)
Lemma clips_exclusive :
  0 < qa_tmp L -> clips_minus L && clips_plus L = false.
Proof.
  rewrite qa_tmp_eq. unfold clips_minus, clips_plus.
  generalize (dqf_minus L) (dqf_plus L). intros m p H.
  apply not_true_iff_false. rewrite andb_true_iff, !Qgeb_true.
  intros [H1 H2]. revert H1 H2. qelim; intros; qnra.
Qed.
End Contraction.

(** C9 (the ratio never amplifies): whenever the division [qe / qd] is
    performed the ratio lies in [0, 1]; and whenever the smooth-extremum
    rescale is applied, each rescaled one-sided difference (cell average to
    final state) has the sign of the unscaled difference (cell average to
    the face value of step 2a), or is zero, and is no larger in
    magnitude. *)
Theorem ratio_never_amplifies (q_im2 q_im1 q_i q_ip1 q_ip2 : Real) :
  let L := PPM_locals q_im2 q_im1 q_i q_ip1 q_ip2 in
  (divides L = true -> rho L == qe L / d2qf L /\ 0 <= rho L /\ rho L <= 1)
  /\ (rescale_applied L = true ->
      q_i - qminus L == rho L * dqf_minus L
      /\ qplus L - q_i == rho L * dqf_plus L
      /\ 0 <= (q_i - qminus L) * dqf_minus L
      /\ Qabs (q_i - qminus L) <= Qabs (dqf_minus L)
      /\ 0 <= (qplus L - q_i) * dqf_plus L
      /\ Qabs (qplus L - q_i) <= Qabs (dqf_plus L)).
Proof.
  cbv zeta. split.
  - intros Hd. rewrite rho_eq at 1. rewrite Hd. split; [reflexivity |].
    apply rho_unit.
  - unfold rescale_applied. rewrite andb_true_iff. intros [He Hr].
    rewrite qminus_eq, qplus_eq, He, Hr, tmp_m_eq, tmp_p_eq.
    destruct (rho_unit q_im2 q_im1 q_i q_ip1 q_ip2) as [H0 H1].
    revert H0 H1.
    generalize (rho (PPM_locals q_im2 q_im1 q_i q_ip1 q_ip2))
      (dqf_minus (PPM_locals q_im2 q_im1 q_i q_ip1 q_ip2))
      (dqf_plus (PPM_locals q_im2 q_im1 q_i q_ip1 q_ip2)).
    intros r m p H0 H1. repeat split; try ring; qelim; qnra.
Qed.

(** C10 (overshoot clips are mutually exclusive): when both monotonicity
    products are strictly positive the two clipping tests cannot both
    succeed, and at least one of the two output states is the face value
    that left step 2a. *)
Theorem overshoot_clips_exclusive (q_im2 q_im1 q_i q_ip1 q_ip2 : Real) :
  let L := PPM_locals q_im2 q_im1 q_i q_ip1 q_ip2 in
  0 < dqf_minus L * dqf_plus L ->
  0 < (q_ip1 - q_i) * (q_i - q_im1) ->
  ~ (2.0 * Qabs (dqf_plus L) <= Qabs (dqf_minus L)
     /\ 2.0 * Qabs (dqf_minus L) <= Qabs (dqf_plus L))
  /\ (qr_i (PPM q_im2 q_im1 q_i q_ip1 q_ip2) = dph L
      \/ ql_ip1 (PPM q_im2 q_im1 q_i q_ip1 q_ip2) = dph_ip1 L).
Proof.
  cbv zeta. intros Ha Hb.
  assert (Hext : extremum_detected (PPM_locals q_im2 q_im1 q_i q_ip1 q_ip2)
                 = false).
  { unfold extremum_detected. rewrite qa_tmp_eq, qb_tmp_eq.
    apply orb_false_iff. rewrite !Qleb_false. split; qlra. }
  pose proof (clips_exclusive q_im2 q_im1 q_i q_ip1 q_ip2) as Hex.
  rewrite qa_tmp_eq in Hex. specialize (Hex Ha). split.
  - intros [H1 H2]. apply Qgeb_true in H1, H2.
    unfold clips_minus, clips_plus in Hex. rewrite H1, H2 in Hex.
    discriminate.
  - unfold qr_i, ql_ip1, PPM. cbn [fst snd]. rewrite qminus_eq, qplus_eq, Hext.
    apply andb_false_iff in Hex. destruct Hex as [-> | ->]; auto.
Qed.

(** ** Step 2a: bounds on the corrected face value *)

Lemma SIGN_inv x :
  (SIGN x = 1%Z -> 0 < x) /\ (SIGN x = (-1)%Z -> x < 0)
  /\ (SIGN x = 0%Z -> x == 0).
Proof.
  destruct (SIGN_cases x); repeat split; intros; trivial; discriminate.
Qed.

(** The limited curvature is no larger than any of its three inputs
    (up to the factor 1.25 on the second differences) and has their
    sign. *)
Lemma limited_face_spec qa qb qc :
  let r := limited_face qa qb qc in
  (Qabs r <= 1.25 * Qabs qb /\ Qabs r <= 1.25 * Qabs qc /\ Qabs r <= Qabs qa)
  /\ (0 <= r * qb /\ 0 <= r * qc /\ 0 <= r * qa).
Proof.
  cbv zeta. unfold limited_face.
  destruct (Z.eqb_spec (SIGN qa) (SIGN qb)) as [Eb|Eb]; cbn [andb];
    [destruct (Z.eqb_spec (SIGN qa) (SIGN qc)) as [Ec|Ec] |].
  - destruct (SIGN_inv qb) as (Hb1 & Hb2 & Hb3).
    destruct (SIGN_inv qc) as (Hc1 & Hc2 & Hc3).
    rewrite <- Eb in Hb1, Hb2, Hb3. rewrite <- Ec in Hc1, Hc2, Hc3.
    unfold of_int.
    destruct (SIGN_cases qa) as [Ha|Ha|Ha].
    + specialize (Hb1 eq_refl). specialize (Hc1 eq_refl).
      change (inject_Z 1) with 1. clear Hb2 Hb3 Hc2 Hc3.
      repeat split; qelim; qnra.
    + specialize (Hb2 eq_refl). specialize (Hc2 eq_refl).
      change (inject_Z (-1)) with (-(1)). clear Hb1 Hb3 Hc1 Hc3.
      repeat split; qelim; qnra.
    + specialize (Hb3 eq_refl). specialize (Hc3 eq_refl).
      change (inject_Z 0) with 0. clear Hb1 Hb2 Hc1 Hc2.
      repeat split; qelim; qnra.
  - repeat split; qelim; qnra.
  - repeat split; qelim; qnra.
Qed.

Lemma face_value_between_inc ql qr f d2l d2r :
  ql <= qr -> d2l <= qr - ql -> - (qr - ql) <= d2r ->
  ql <= face_value ql qr f d2l d2r /\ face_value ql qr f d2l d2r <= qr.
Proof.
  intros Hlr Hl Hr. unfold face_value.
  destruct (Qltb _ _) eqn:E; [clear E | apply Qltb_false in E; qnra].
  destruct (limited_face_spec (3.0 * (ql + qr - 2.0 * f)) d2l d2r)
    as ((B1 & B2 & _) & S1 & S2 & _).
  revert B1 B2 S1 S2. generalize (limited_face (3.0 * (ql + qr - 2.0 * f)) d2l d2r).
  intros r. qelim; intros; split; qnra.
Qed.

Lemma face_value_between_dec ql qr f d2l d2r :
  qr <= ql -> - (ql - qr) <= d2l -> d2r <= ql - qr ->
  qr <= face_value ql qr f d2l d2r /\ face_value ql qr f d2l d2r <= ql.
Proof.
  intros Hlr Hl Hr.
  rewrite (face_value_swap ql qr f d2l d2r qr ql f d2r d2l); try reflexivity.
  apply face_value_between_inc; assumption.
Qed.

(** On a monotone stencil both face values that leave step 2a lie
    between the two cells of their face. *)
Lemma faces_between_increasing a b c d e :
  a <= b -> b <= c -> c <= d -> d <= e ->
  face_between b c (dph (PPM_locals a b c d e))
  /\ face_between c d (dph_ip1 (PPM_locals a b c d e)).
Proof.
  intros Hab Hbc Hcd Hde. unfold face_between.
  rewrite dph_eq, dph_ip1_eq, d2qc_im1_eq, d2qc_eq, d2qc_ip1_eq.
  rewrite (Q.min_l b c), (Q.max_r b c), (Q.min_l c d), (Q.max_r c d) by trivial.
  split; apply face_value_between_inc; trivial; unfold second_diff; qlra.
Qed.

Lemma faces_between_decreasing a b c d e :
  b <= a -> c <= b -> d <= c -> e <= d ->
  face_between b c (dph (PPM_locals a b c d e))
  /\ face_between c d (dph_ip1 (PPM_locals a b c d e)).
Proof.
  intros Hab Hbc Hcd Hde. unfold face_between.
  rewrite dph_eq, dph_ip1_eq, d2qc_im1_eq, d2qc_eq, d2qc_ip1_eq.
  rewrite (Q.min_r b c), (Q.max_l b c), (Q.min_r c d), (Q.max_l c d) by trivial.
  split; apply face_value_between_dec; trivial; unfold second_diff; qlra.
Qed.

(** A face value that step 2a does not correct lies between its two
    cells. *)
Lemma faces_between_uncorrected a b c d e :
  0 <= (dph_unlimited a b c d - b) * (c - dph_unlimited a b c d) ->
  0 <= (dph_ip1_unlimited b c d e - c) * (d - dph_ip1_unlimited b c d e) ->
  face_between b c (dph (PPM_locals a b c d e))
  /\ face_between c d (dph_ip1 (PPM_locals a b c d e)).
Proof.
  intros Hm Hp. rewrite dph_eq, dph_ip1_eq.
  rewrite !face_value_keep by assumption. unfold face_between.
  revert Hm Hp.
  generalize (dph_unlimited a b c d) (dph_ip1_unlimited b c d e).
  intros fm fp Hm Hp. split; qelim; split; qnra.
Qed.

(** Whatever branch step 4 takes, face values that lie between their
    cells give states within the three central cells. *)
Lemma states_within_cells a b c d e :
  let L := PPM_locals a b c d e in
  face_between b c (dph L) -> face_between c d (dph_ip1 L) ->
  (Qmin (Qmin b c) d <= qminus L /\ qminus L <= Qmax (Qmax b c) d)
  /\ (Qmin (Qmin b c) d <= qplus L /\ qplus L <= Qmax (Qmax b c) d).
Proof.
  cbv zeta. unfold face_between.
  destruct (qminus_between a b c d e) as [M1 M2].
  destruct (qplus_between a b c d e) as [P1 P2].
  revert M1 M2 P1 P2.
  generalize (qminus (PPM_locals a b c d e)) (qplus (PPM_locals a b c d e))
    (dph (PPM_locals a b c d e)) (dph_ip1 (PPM_locals a b c d e)).
  intros m p fm fp M1 M2 P1 P2 [F1 F2] [G1 G2].
  assert (Hm : Qmin b c <= m /\ m <= Qmax b c)
    by (revert M1 M2 F1 F2; clear; qelim; intros; split; qlra).
  assert (Hp : Qmin c d <= p /\ p <= Qmax c d)
    by (revert P1 P2 G1 G2; clear; qelim; intros; split; qlra).
  clear - Hm Hp. destruct Hm as [Hm1 Hm2], Hp as [Hp1 Hp2].
  revert Hm1 Hm2 Hp1 Hp2. qelim; intros; repeat split; qlra.
Qed.


(** On a monotone stencil both states lie within the three central
    cells, whichever branch step 4 takes. *)
Corollary PPM_monotone_bounded (a b c d e : Real) :
  (a <= b /\ b <= c /\ c <= d /\ d <= e)
  \/ (b <= a /\ c <= b /\ d <= c /\ e <= d) ->
  let out := PPM a b c d e in
  (Qmin (Qmin b c) d <= qr_i out /\ qr_i out <= Qmax (Qmax b c) d)
  /\ (Qmin (Qmin b c) d <= ql_ip1 out /\ ql_ip1 out <= Qmax (Qmax b c) d).
Proof.
  intros H. cbv zeta. unfold qr_i, ql_ip1, PPM. cbn [fst snd].
  apply states_within_cells;
    destruct H as [(H1 & H2 & H3 & H4) | (H1 & H2 & H3 & H4)];
    solve [ now apply faces_between_increasing
          | now apply faces_between_decreasing ].
Qed.


(** The values at the counterexample. *)
Example PPM_overshoot_values :
  Qred (qr_i (PPM 100 0 1 100 200)) = -193 # 12
  /\ Qred (ql_ip1 (PPM 100 0 1 100 200)) = 211 # 6
  /\ rescale_applied (PPM_locals 100 0 1 100 200) = false
  /\ extremum_detected (PPM_locals 100 0 1 100 200) = false.
Proof. repeat split; vm_compute; reflexivity. Qed.

(** ** The roundoff guard *)

Lemma stencil_scale_bounds a b c d e :
  let M := stencil_scale a b c d e in
  Qabs a <= M /\ Qabs b <= M /\ Qabs c <= M /\ Qabs d <= M /\ Qabs e <= M.
Proof.
  cbv zeta. unfold stencil_scale.
  generalize (Qabs a) (Qabs b) (Qabs c) (Qabs d) (Qabs e). intros.
  repeat split; qelim; qlra.
Qed.

(** A face value of step 2a is at most twice the stencil scale. *)
Lemma face_value_bound ql qr f d2l d2r M :
  Qabs ql <= M -> Qabs qr <= M -> Qabs f <= 2 * M -> Qabs d2l <= 4 * M ->
  Qabs (face_value ql qr f d2l d2r) <= 2 * M.
Proof.
  intros Hl Hr Hf Hd. unfold face_value.
  destruct (Qltb _ _); [| assumption].
  destruct (limited_face_spec (3.0 * (ql + qr - 2.0 * f)) d2l d2r)
    as ((B1 & _) & _).
  revert B1 Hl Hr Hd. clear.
  generalize (limited_face (3.0 * (ql + qr - 2.0 * f)) d2l d2r).
  intros r. qelim; intros; qlra.
Qed.

Lemma faces_bound a b c d e :
  let L := PPM_locals a b c d e in
  let M := stencil_scale a b c d e in
  Qabs (dph L) <= 2 * M /\ Qabs (dph_ip1 L) <= 2 * M.
Proof.
  cbv zeta. rewrite dph_eq, dph_ip1_eq, d2qc_im1_eq, d2qc_eq, d2qc_ip1_eq.
  destruct (stencil_scale_bounds a b c d e) as (Ha & Hb & Hc & Hd & He).
  revert Ha Hb Hc Hd He. generalize (stencil_scale a b c d e). intros M.
  intros. split; apply face_value_bound; trivial;
    unfold dph_unlimited, dph_ip1_unlimited, second_diff;
    revert Ha Hb Hc Hd He; clear; qelim; intros; qlra.
Qed.

(** C6 (roundoff guard): when the combined curvature [d2qf] is at most
    1e-12 times the largest magnitude of the stencil, the division
    [qe / qd] is not performed, the ratio is zero, and both output states
    are bounded by twice the largest magnitude of the stencil. *)
Theorem roundoff_guard (q_im2 q_im1 q_i q_ip1 q_ip2 : Real) :
  let L := PPM_locals q_im2 q_im1 q_i q_ip1 q_ip2 in
  let out := PPM q_im2 q_im1 q_i q_ip1 q_ip2 in
  let M := stencil_scale q_im2 q_im1 q_i q_ip1 q_ip2 in
  Qabs (d2qf L) <= 1.0e-12 * M ->
  divides L = false /\ rho L == 0
  /\ Qabs (ql_ip1 out) <= 2 * M /\ Qabs (qr_i out) <= 2 * M.
Proof.
  cbv zeta. intros Hg.
  assert (Hd : divides (PPM_locals q_im2 q_im1 q_i q_ip1 q_ip2) = false).
  { unfold divides. rewrite scale_eq, qd_eq. now apply Qgtb_false. }
  split; [exact Hd | split].
  - rewrite rho_eq, Hd. reflexivity.
  - unfold ql_ip1, qr_i, PPM. cbn [fst snd].
    destruct (qminus_between q_im2 q_im1 q_i q_ip1 q_ip2) as [M1 M2].
    destruct (qplus_between q_im2 q_im1 q_i q_ip1 q_ip2) as [P1 P2].
    destruct (faces_bound q_im2 q_im1 q_i q_ip1 q_ip2) as [F1 F2].
    destruct (stencil_scale_bounds q_im2 q_im1 q_i q_ip1 q_ip2)
      as (_ & _ & Hc & _ & _).
    revert M1 M2 P1 P2 F1 F2 Hc. clear.
    generalize (qminus (PPM_locals q_im2 q_im1 q_i q_ip1 q_ip2))
      (qplus (PPM_locals q_im2 q_im1 q_i q_ip1 q_ip2))
      (dph (PPM_locals q_im2 q_im1 q_i q_ip1 q_ip2))
      (dph_ip1 (PPM_locals q_im2 q_im1 q_i q_ip1 q_ip2))
      (stencil_scale q_im2 q_im1 q_i q_ip1 q_ip2).
    intros m p fm fp M. qelim; intros; split; qlra.
Qed.

(** ** The sweep drivers *)

Lemma for_count_ext count lo (f g : Z -> Buffers -> Buffers) s :
  (forall i s', f i s' = g i s') ->
  for_count count lo f s = for_count count lo g s.
Proof.
  intros H. revert lo s. induction count as [|c IH]; intros lo s; cbn.
  - reflexivity.
  - now rewrite H, IH.
Qed.

Lemma driver_sweep ax k j il iu q ql qr :
  driver ax k j il iu q ql qr = sweep ax k j il iu q (ql, qr).
Proof.
  unfold sweep, for_lt, par_for_inner.
  destruct ax; cbn [driver];
    [unfold PiecewiseParabolicX1 | unfold PiecewiseParabolicX2
     | unfold PiecewiseParabolicX3];
    unfold for_lt, par_for_inner; cbv zeta;
    apply for_count_ext; intros n s; apply for_count_ext; intros i [l r];
    unfold PPM_into, PPM_along, stencil_at, left_shift; cbn [fst snd];
    rewrite ?Z.add_0_r; reflexivity.
Qed.

(** What one line of the inner loop leaves in the two buffers. *)
Lemma inner_loop_spec (vl vr : Z -> Real) (n shift : Z) count lo s n' p :
  let s' := for_count count lo (fun i s =>
              (store (fst s) n (i + shift) (vl i), store (snd s) n i (vr i))) s in
  fst s' n' p =
    (if ((n' =? n) && (lo <=? p - shift) && (p - shift <? lo + Z.of_nat count))%Z
     then vl (p - shift)%Z else fst s n' p)
  /\ snd s' n' p =
    (if ((n' =? n) && (lo <=? p) && (p <? lo + Z.of_nat count))%Z
     then vr p else snd s n' p).
Proof.
  cbv zeta. revert lo s. induction count as [|c IH]; intros lo s.
  - cbn [for_count]. split.
    + destruct (n' =? n)%Z, (Z.leb_spec lo (p - shift)),
        (Z.ltb_spec (p - shift) (lo + Z.of_nat 0)); cbn; trivial; lia.
    + destruct (n' =? n)%Z, (Z.leb_spec lo p),
        (Z.ltb_spec p (lo + Z.of_nat 0)); cbn; trivial; lia.
  - cbn [for_count]. destruct (IH (lo + 1)%Z
      (store (fst s) n (lo + shift) (vl lo), store (snd s) n lo (vr lo)))
      as [IHl IHr].
    rewrite IHl, IHr. cbn [fst snd]. unfold store. split.
    + destruct (Z.eqb_spec n' n); cbn [andb]; trivial.
      destruct (Z.leb_spec (lo + 1) (p - shift)),
        (Z.ltb_spec (p - shift) (lo + 1 + Z.of_nat c)),
        (Z.leb_spec lo (p - shift)),
        (Z.ltb_spec (p - shift) (lo + Z.of_nat (S c))),
        (Z.eqb_spec p (lo + shift)); cbn [andb]; trivial; try lia.
      f_equal. lia.
    + destruct (Z.eqb_spec n' n); cbn [andb]; trivial.
      destruct (Z.leb_spec (lo + 1) p), (Z.ltb_spec p (lo + 1 + Z.of_nat c)),
        (Z.leb_spec lo p), (Z.ltb_spec p (lo + Z.of_nat (S c))),
        (Z.eqb_spec p lo); cbn [andb]; trivial; try lia.
      f_equal. lia.
Qed.

(** What the whole loop nest leaves in the two buffers. *)
Lemma loop_nest_spec (vl vr : Z -> Z -> Real) (shift : Z) c il count lo s n' p :
  let s' := for_count count lo (fun n s =>
              for_count c il (fun i s =>
                (store (fst s) n (i + shift) (vl n i),
                 store (snd s) n i (vr n i))) s) s in
  fst s' n' p =
    (if ((lo <=? n') && (n' <? lo + Z.of_nat count)
         && ((il <=? p - shift) && (p - shift <? il + Z.of_nat c)))%Z
     then vl n' (p - shift)%Z else fst s n' p)
  /\ snd s' n' p =
    (if ((lo <=? n') && (n' <? lo + Z.of_nat count)
         && ((il <=? p) && (p <? il + Z.of_nat c)))%Z
     then vr n' p else snd s n' p).
Proof.
  cbv zeta. revert lo s. induction count as [|cnt IH]; intros lo s.
  - cbn [for_count].
    destruct (Z.leb_spec lo n'), (Z.ltb_spec n' (lo + Z.of_nat 0));
      cbn [andb]; auto; lia.
  - cbn [for_count]. destruct (IH (lo + 1)%Z
      (for_count c il (fun i s0 =>
         (store (fst s0) lo (i + shift) (vl lo i),
          store (snd s0) lo i (vr lo i))) s)) as [IHl IHr].
    rewrite IHl, IHr.
    destruct (inner_loop_spec (vl lo) (vr lo) lo shift c il s n' p)
      as [Il Ir].
    cbv beta zeta in Il, Ir. rewrite Il, Ir. clear.
    destruct (Z.eqb_spec n' lo) as [->|Hn]; cbn [andb].
    + destruct (Z.leb_spec (lo + 1) lo), (Z.leb_spec lo lo),
        (Z.ltb_spec lo (lo + Z.of_nat (S cnt))); cbn [andb]; auto; lia.
    + destruct (Z.leb_spec (lo + 1) n'), (Z.leb_spec lo n'),
        (Z.ltb_spec n' (lo + 1 + Z.of_nat cnt)),
        (Z.ltb_spec n' (lo + Z.of_nat (S cnt))); cbn [andb]; auto; lia.
Qed.

(** The cells a sweep writes, and what it writes there. *)
Lemma sweep_written ax k j il iu q s n i :
  (0 <= n < GetDim q 4)%Z -> (il <= i <= iu)%Z ->
  fst (sweep ax k j il iu q s) n (i + left_shift ax)%Z
    = ql_ip1 (PPM_along ax q n k j i)
  /\ snd (sweep ax k j il iu q s) n i = qr_i (PPM_along ax q n k j i).
Proof.
  intros Hn Hi. unfold sweep, for_lt, par_for_inner.
  destruct (loop_nest_spec
              (fun n i => ql_ip1 (PPM_along ax q n k j i))
              (fun n i => qr_i (PPM_along ax q n k j i))
              (left_shift ax) (Z.to_nat (iu - il + 1)) il
              (Z.to_nat (GetDim q 4 - 0)) 0 s n (i + left_shift ax)%Z)
    as [Hl _].
  destruct (loop_nest_spec
              (fun n i => ql_ip1 (PPM_along ax q n k j i))
              (fun n i => qr_i (PPM_along ax q n k j i))
              (left_shift ax) (Z.to_nat (iu - il + 1)) il
              (Z.to_nat (GetDim q 4 - 0)) 0 s n i)
    as [_ Hr].
  cbv beta zeta in Hl, Hr. rewrite Hl, Hr. clear Hl Hr.
  replace (i + left_shift ax - left_shift ax)%Z with i by lia.
  destruct (Z.leb_spec 0 n),
    (Z.ltb_spec n (0 + Z.of_nat (Z.to_nat (GetDim q 4 - 0)))),
    (Z.leb_spec il i),
    (Z.ltb_spec i (il + Z.of_nat (Z.to_nat (iu - il + 1))));
    cbn [andb]; auto; lia.
Qed.

(** The cells a sweep leaves alone. *)
Lemma sweep_frame ax k j il iu q s n p :
  (~ (0 <= n < GetDim q 4) \/ ~ (il <= p - left_shift ax <= iu))%Z ->
  fst (sweep ax k j il iu q s) n p = fst s n p.
Proof.
  intros H. unfold sweep, for_lt, par_for_inner.
  destruct (loop_nest_spec
              (fun n i => ql_ip1 (PPM_along ax q n k j i))
              (fun n i => qr_i (PPM_along ax q n k j i))
              (left_shift ax) (Z.to_nat (iu - il + 1)) il
              (Z.to_nat (GetDim q 4 - 0)) 0 s n p)
    as [Hl _].
  cbv beta zeta in Hl. rewrite Hl. clear Hl.
  destruct (Z.leb_spec 0 n),
    (Z.ltb_spec n (0 + Z.of_nat (Z.to_nat (GetDim q 4 - 0)))),
    (Z.leb_spec il (p - left_shift ax)),
    (Z.ltb_spec (p - left_shift ax) (il + Z.of_nat (Z.to_nat (iu - il + 1))));
    cbn [andb]; auto; lia.
Qed.

(** The cells each driver writes for one (variable, index) pair. *)
Lemma drivers_indexing_aux (q : FieldArray) (k j il iu : Z)
    (ql qr : ScratchPad2D) (n i : Z) :
  (0 <= n < GetDim q 4)%Z -> (il <= i <= iu)%Z ->
  (let s := PiecewiseParabolicX1 k j il iu q ql qr in
   let out := PPM (elem q n k j (i - 2)) (elem q n k j (i - 1)) (elem q n k j i)
                  (elem q n k j (i + 1)) (elem q n k j (i + 2)) in
   fst s n (i + 1)%Z = ql_ip1 out /\ snd s n i = qr_i out)
  /\ (let s := PiecewiseParabolicX2 k j il iu q ql qr in
      let out := PPM (elem q n k (j - 2) i) (elem q n k (j - 1) i)
                     (elem q n k j i)
                     (elem q n k (j + 1) i) (elem q n k (j + 2) i) in
      fst s n i = ql_ip1 out /\ snd s n i = qr_i out)
  /\ (let s := PiecewiseParabolicX3 k j il iu q ql qr in
      let out := PPM (elem q n (k - 2) j i) (elem q n (k - 1) j i)
                     (elem q n k j i)
                     (elem q n (k + 1) j i) (elem q n (k + 2) j i) in
      fst s n i = ql_ip1 out /\ snd s n i = qr_i out).
Proof.
  intros Hn Hi. cbv zeta.
  assert (H : forall ax,
             fst (driver ax k j il iu q ql qr) n (i + left_shift ax)%Z
               = ql_ip1 (PPM_along ax q n k j i)
             /\ snd (driver ax k j il iu q ql qr) n i
                = qr_i (PPM_along ax q n k j i))
    by (intros ax; rewrite driver_sweep; now apply sweep_written).
  pose proof (H AxisX1) as H1. pose proof (H AxisX2) as H2.
  pose proof (H AxisX3) as H3. clear H.
  cbn [driver left_shift] in H1, H2, H3.
  unfold PPM_along, stencil_at in H1, H2, H3.
  rewrite !Z.add_0_r in H1. rewrite !Z.add_0_r in H2.
  rewrite !Z.add_0_r in H3.
  destruct H1 as [L1 R1], H2 as [L2 R2], H3 as [L3 R3].
  repeat split; assumption.
Qed.

(** C4 (driver indexing), amended: for every variable [n] in [0, nvar) and
    every index [i] in [il, iu] each driver calls [PPM] on the cells at
    displacements -2..+2 along its own axis and stores the right state at
    index [i] of its right buffer; the left state goes to index [i + 1] of
    the left buffer in [PiecewiseParabolicX1] and to index [i] of the left
    buffer in [PiecewiseParabolicX2] and [PiecewiseParabolicX3].  All three
    are the loop nest [sweep], which depends on the axis through
    [stencil_at] and [left_shift] only. *)
Theorem drivers_indexing (q : FieldArray) (k j il iu : Z)
    (ql qr : ScratchPad2D) (n i : Z) :
  (0 <= n < GetDim q 4)%Z -> (il <= i <= iu)%Z ->
  (let s := PiecewiseParabolicX1 k j il iu q ql qr in
   let out := PPM (elem q n k j (i - 2)) (elem q n k j (i - 1)) (elem q n k j i)
                  (elem q n k j (i + 1)) (elem q n k j (i + 2)) in
   fst s n (i + 1)%Z = ql_ip1 out /\ snd s n i = qr_i out)
  /\ (let s := PiecewiseParabolicX2 k j il iu q ql qr in
      let out := PPM (elem q n k (j - 2) i) (elem q n k (j - 1) i)
                     (elem q n k j i)
                     (elem q n k (j + 1) i) (elem q n k (j + 2) i) in
      fst s n i = ql_ip1 out /\ snd s n i = qr_i out)
  /\ (let s := PiecewiseParabolicX3 k j il iu q ql qr in
      let out := PPM (elem q n (k - 2) j i) (elem q n (k - 1) j i)
                     (elem q n k j i)
                     (elem q n (k + 1) j i) (elem q n (k + 2) j i) in
      fst s n i = ql_ip1 out /\ snd s n i = qr_i out)
  /\ (forall ax, driver ax k j il iu q ql qr = sweep ax k j il iu q (ql, qr)).
Proof.
  intros Hn Hi.
  destruct (drivers_indexing_aux q k j il iu ql qr n i Hn Hi) as (X1 & X2 & X3).
  repeat split; try apply X1; try apply X2; try apply X3.
  intros ax. apply driver_sweep.
Qed.

(** C4 as stated fails for [PiecewiseParabolicX2]: it does not store the
    left state at index [i + 1] of its left buffer. *)
Lemma PiecewiseParabolicX2_left_index_counterexample :
  ~ (forall (q : FieldArray) (k j il iu : Z) (ql qr : ScratchPad2D) (n i : Z),
       (0 <= n < GetDim q 4)%Z -> (il <= i <= iu)%Z ->
       fst (PiecewiseParabolicX2 k j il iu q ql qr) n (i + 1)%Z
       == ql_ip1 (PPM (elem q n k (j - 2) i) (elem q n k (j - 1) i)
                      (elem q n k j i)
                      (elem q n k (j + 1) i) (elem q n k (j + 2) i))).
Proof.
  intros H.
  specialize (H squares_along_j 0 0 0 0 zero_buffer zero_buffer 0 0)%Z.
  assert (H' := H ltac:(cbn; lia) ltac:(lia)). vm_compute in H'. discriminate.
Qed.

(** The cell the claim names is left untouched; the left state is in
    cell 0. *)
Example PiecewiseParabolicX2_cells :
  let s := PiecewiseParabolicX2 0 0 0 0 squares_along_j
             zero_buffer zero_buffer in
  Qred (fst s 0 1)%Z = 0 /\ Qred (fst s 0 0)%Z = 1 # 6
  /\ Qred (ql_ip1 (PPM 4 1 0 1 4)) = 1 # 6.
Proof. repeat split; vm_compute; reflexivity. Qed.

(** C5 (axis invariance): for a line of data [f] laid along the i axis,
    the j axis and the k axis, cell [c] of the line gets the same left
    state and the same right state from [PiecewiseParabolicX1] (at index
    [c] of its range), from [PiecewiseParabolicX2] (called for row [c])
    and from [PiecewiseParabolicX3] (called for plane [c]). *)
Theorem axis_invariance (nvar : Z) (f : Z -> Z -> Real) (k j i c : Z)
    (il1 iu1 il2 iu2 il3 iu3 : Z) (ql1 qr1 ql2 qr2 ql3 qr3 : ScratchPad2D)
    (n : Z) :
  (0 <= n < nvar)%Z -> (il1 <= c <= iu1)%Z ->
  (il2 <= i <= iu2)%Z -> (il3 <= i <= iu3)%Z ->
  let s1 := PiecewiseParabolicX1 k j il1 iu1 (line_field AxisX1 nvar f)
              ql1 qr1 in
  let s2 := PiecewiseParabolicX2 k c il2 iu2 (line_field AxisX2 nvar f)
              ql2 qr2 in
  let s3 := PiecewiseParabolicX3 c j il3 iu3 (line_field AxisX3 nvar f)
              ql3 qr3 in
  let out := PPM (f n (c - 2)%Z) (f n (c - 1)%Z) (f n c)
                 (f n (c + 1)%Z) (f n (c + 2)%Z) in
  (fst s1 n (c + 1)%Z = ql_ip1 out /\ fst s2 n i = ql_ip1 out
   /\ fst s3 n i = ql_ip1 out)
  /\ (snd s1 n c = qr_i out /\ snd s2 n i = qr_i out
      /\ snd s3 n i = qr_i out).
Proof.
  intros Hn H1 H2 H3. cbv zeta.
  destruct (drivers_indexing_aux (line_field AxisX1 nvar f) k j il1 iu1
              ql1 qr1 n c Hn H1) as (X1 & _ & _).
  destruct (drivers_indexing_aux (line_field AxisX2 nvar f) k c il2 iu2
              ql2 qr2 n i Hn H2) as (_ & X2 & _).
  destruct (drivers_indexing_aux (line_field AxisX3 nvar f) c j il3 iu3
              ql3 qr3 n i Hn H3) as (_ & _ & X3).
  cbv zeta in X1, X2, X3. cbn [elem line_field] in X1, X2, X3.
  destruct X1 as [-> ->], X2 as [-> ->], X3 as [-> ->]. repeat split.
Qed.

(** ** The theorems at concrete stencils *)


(** [roundoff_guard] on (1, 2, 3, 4, 5), where [d2qf] is zero. *)
Lemma roundoff_guard_witness :
  let L := PPM_locals 1 2 3 4 5 in
  let out := PPM 1 2 3 4 5 in
  let M := stencil_scale 1 2 3 4 5 in
  divides L = false /\ rho L == 0
  /\ Qabs (ql_ip1 out) <= 2 * M /\ Qabs (qr_i out) <= 2 * M.
Proof.
  apply (roundoff_guard 1 2 3 4 5). vm_compute. discriminate.
Defined.

(** [ratio_never_amplifies] on (-4, -1, 0, -2, -5): the division is
    performed, the ratio is 5/18 and the rescale is applied. *)
Lemma ratio_never_amplifies_witness :
  let L := PPM_locals (-4) (-1) 0 (-2) (-5) in
  (rho L == 5 # 18 /\ 0 <= rho L /\ rho L <= 1)
  /\ (0 - qminus L == rho L * dqf_minus L
      /\ qplus L - 0 == rho L * dqf_plus L
      /\ 0 <= (0 - qminus L) * dqf_minus L
      /\ Qabs (0 - qminus L) <= Qabs (dqf_minus L)
      /\ 0 <= (qplus L - 0) * dqf_plus L
      /\ Qabs (qplus L - 0) <= Qabs (dqf_plus L)).
Proof.
  destruct (ratio_never_amplifies (-4) (-1) 0 (-2) (-5)) as [Hd Hr].
  split.
  - destruct (Hd eq_refl) as (_ & H0 & H1).
    split; [vm_compute; reflexivity | split; assumption].
  - apply Hr. vm_compute. reflexivity.
Defined.

(** [overshoot_clips_exclusive] on (100, 0, 1, 100, 200): only the plus
    state is clipped. *)
Lemma overshoot_clips_exclusive_witness :
  let L := PPM_locals 100 0 1 100 200 in
  ~ (2.0 * Qabs (dqf_plus L) <= Qabs (dqf_minus L)
     /\ 2.0 * Qabs (dqf_minus L) <= Qabs (dqf_plus L))
  /\ (qr_i (PPM 100 0 1 100 200) = dph L
      \/ ql_ip1 (PPM 100 0 1 100 200) = dph_ip1 L).
Proof.
  apply (overshoot_clips_exclusive 100 0 1 100 200);
    vm_compute; reflexivity.
Defined.

(** [drivers_indexing] on the field of squares, one variable, range
    [0, 0]. *)
Lemma drivers_indexing_witness :
  fst (PiecewiseParabolicX2 0 0 0 0 squares_along_j zero_buffer zero_buffer)
      0%Z 0%Z
  = ql_ip1 (PPM (elem squares_along_j 0 0 (0 - 2) 0)
                (elem squares_along_j 0 0 (0 - 1) 0)
                (elem squares_along_j 0 0 0 0)
                (elem squares_along_j 0 0 (0 + 1) 0)
                (elem squares_along_j 0 0 (0 + 2) 0)).
Proof.
  assert (Hn : (0 <= 0 < GetDim squares_along_j 4)%Z) by (cbn; lia).
  assert (Hi : (0 <= 0 <= 0)%Z) by lia.
  exact (proj1 (proj1 (proj2
    (drivers_indexing squares_along_j 0 0 0 0 zero_buffer zero_buffer 0 0
       Hn Hi)))).
Defined.

(** [axis_invariance] on the line of squares, cell 0. *)
Lemma axis_invariance_witness :
  let f := fun (_ c : Z) => inject_Z (c * c) in
  fst (PiecewiseParabolicX1 0 0 0 0 (line_field AxisX1 1 f)
         zero_buffer zero_buffer) 0%Z (0 + 1)%Z
  = fst (PiecewiseParabolicX3 0 0 0 0 (line_field AxisX3 1 f)
           zero_buffer zero_buffer) 0%Z 0%Z.
Proof.
  intros f.
  assert (Hn : (0 <= 0 < 1)%Z) by lia.
  assert (Hi : (0 <= 0 <= 0)%Z) by lia.
  destruct (axis_invariance 1 f 0 0 0 0 0 0 0 0 0 0 zero_buffer zero_buffer
              zero_buffer zero_buffer zero_buffer zero_buffer 0 Hn Hi Hi Hi)
    as ((H1 & _ & H3) & _).
  cbv zeta in H1, H3. now rewrite H1, H3.
Defined.

(** ** The kernel run on binary64 *)

Section Binary64Runs.
Local Open Scope float_scope.
#[local] Set Warnings "-inexact-float".

(** The regression vector of C8 in machine arithmetic: both states are
    exactly 1.0. *)
Example PPM_binary64_ramp_vector :
  Binary64.PPM 1 1 1 2 3 = (1, 1).
Proof. vm_compute. reflexivity. Qed.

(** A stencil and its mirror image give mirrored states, bit for bit. *)
Example PPM_binary64_mirror_sample :
  Binary64.PPM 0.1 0.3 0.7 0.8 0.85
  = (snd (Binary64.PPM 0.85 0.8 0.7 0.3 0.1),
     fst (Binary64.PPM 0.85 0.8 0.7 0.3 0.1))
  /\ (snd (Binary64.PPM 0.1 0.3 0.7 0.8 0.85)
        <? fst (Binary64.PPM 0.1 0.3 0.7 0.8 0.85)) = true.
Proof. split; vm_compute; reflexivity. Qed.

(** Five equal values that are not representable exactly come back
    unchanged. *)
Example PPM_binary64_constant_sample :
  Binary64.PPM 0.1 0.1 0.1 0.1 0.1 = (0.1, 0.1).
Proof. vm_compute. reflexivity. Qed.

(** The overshoot of [PPM_overshoot_values] is there in machine
    arithmetic too: the right state is below all three central cells. *)
Example PPM_binary64_overshoot :
  (snd (Binary64.PPM 100 0 1 100 200) <? 0) = true.
Proof. vm_compute. reflexivity. Qed.
End Binary64Runs.

(** ** Homogeneity of the kernel *)









Lemma SIGN_times_abs s : of_int (SIGN s) * Qabs s == s.
Proof.
  unfold of_int. destruct (SIGN_cases s) as [H|H|H].
  - rewrite Qabs_pos by qlra. change (inject_Z 1) with 1. ring.
  - rewrite Qabs_neg by qlra. change (inject_Z (-1)) with (-(1)). ring.
  - rewrite H. reflexivity.
Qed.















Section MoreOfStep4.
Variables q_im2 q_im1 q_i q_ip1 q_ip2 : Real.
Local Abbreviation L := (PPM_locals q_im2 q_im1 q_i q_ip1 q_ip2).

Lemma qe_smooth :
  qe L = if smooth L
         then of_int (SIGN (d2qf L)) *
              Qmin (Qmin (1.25 * Qabs (d2qc_im1 L)) (1.25 * Qabs (d2qc L)))
                   (Qmin (1.25 * Qabs (d2qc_ip1 L)) (Qabs (d2qf L)))
         else 0.0.
Proof. rewrite qe_eq. reflexivity. Qed.

Lemma rho_zero_leb : rho L == 0 -> (rho L <=? 1.0 - 1.0e-12) = true.
Proof. intros H. apply Qleb_true. rewrite H. qlra. Qed.
End MoreOfStep4.

(** X2 (guarded division): whenever the roundoff check lets the division
    [qe / qd] run, the divisor [qd] is not zero. *)
Theorem division_guarded (q_im2 q_im1 q_i q_ip1 q_ip2 : Real) :
  let L := PPM_locals q_im2 q_im1 q_i q_ip1 q_ip2 in
  divides L = true -> ~ qd L == 0 /\ rho L = qe L / qd L.
Proof.
  cbv zeta. intros H. split.
  - now apply divides_nonzero.
  - rewrite rho_eq at 1. now rewrite H.
Qed.

(** X3 (step 4 contracts): on every stencil the right state lies between
    the lower face value of step 2a and the cell average, and the left
    state between the cell average and the upper face value: step 4 only
    moves a state toward the cell average, in every branch. *)
Theorem states_toward_cell_average (q_im2 q_im1 q_i q_ip1 q_ip2 : Real) :
  let L := PPM_locals q_im2 q_im1 q_i q_ip1 q_ip2 in
  let out := PPM q_im2 q_im1 q_i q_ip1 q_ip2 in
  (Qmin (dph L) q_i <= qr_i out /\ qr_i out <= Qmax (dph L) q_i)
  /\ (Qmin q_i (dph_ip1 L) <= ql_ip1 out
      /\ ql_ip1 out <= Qmax q_i (dph_ip1 L)).
Proof.
  cbv zeta. unfold qr_i, ql_ip1, PPM. cbn [fst snd].
  split; [apply qminus_between | apply qplus_between].
Qed.

Lemma face_value_toward_midpoint ql qr f d2l d2r :
  let m := 0.5 * (ql + qr) in
  Qmin f m <= face_value ql qr f d2l d2r
  /\ face_value ql qr f d2l d2r <= Qmax f m.
Proof.
  cbv zeta. unfold face_value.
  destruct (Qltb _ _).
  - destruct (limited_face_spec (3.0 * (ql + qr - 2.0 * f)) d2l d2r)
      as ((_ & _ & B) & _ & _ & S).
    revert B S. generalize (limited_face (3.0 * (ql + qr - 2.0 * f)) d2l d2r).
    intros r. qelim; intros; split; qnra.
  - qelim; split; qlra.
Qed.

(** X4 (step 2a contracts): each face value that leaves step 2a lies
    between the unlimited face value and the mean of the two cells of the
    face: the correction moves a face value toward that mean, never past
    it and never away from it. *)
Theorem face_correction_toward_midpoint (q_im2 q_im1 q_i q_ip1 q_ip2 : Real) :
  let L := PPM_locals q_im2 q_im1 q_i q_ip1 q_ip2 in
  let fm := dph_unlimited q_im2 q_im1 q_i q_ip1 in
  let fp := dph_ip1_unlimited q_im1 q_i q_ip1 q_ip2 in
  (Qmin fm (0.5 * (q_im1 + q_i)) <= dph L
   /\ dph L <= Qmax fm (0.5 * (q_im1 + q_i)))
  /\ (Qmin fp (0.5 * (q_i + q_ip1)) <= dph_ip1 L
      /\ dph_ip1 L <= Qmax fp (0.5 * (q_i + q_ip1))).
Proof.
  cbv zeta. rewrite dph_eq, dph_ip1_eq.
  split; apply face_value_toward_midpoint.
Qed.

(** X5 (extremum that is not smooth): when an extremum is detected and
    the four curvature estimates do not share one sign, both output
    states are the cell average. *)
Theorem nonsmooth_extremum_flattened (q_im2 q_im1 q_i q_ip1 q_ip2 : Real) :
  let L := PPM_locals q_im2 q_im1 q_i q_ip1 q_ip2 in
  let out := PPM q_im2 q_im1 q_i q_ip1 q_ip2 in
  extremum_detected L = true -> smooth L = false ->
  ql_ip1 out == q_i /\ qr_i out == q_i.
Proof.
  cbv zeta. intros He Hs. unfold ql_ip1, qr_i, PPM. cbn [fst snd].
  assert (Hr : rho (PPM_locals q_im2 q_im1 q_i q_ip1 q_ip2) == 0).
  { rewrite rho_eq, qe_smooth, Hs. destruct (divides _); [| reflexivity].
    unfold Qdiv. ring. }
  rewrite qminus_eq, qplus_eq, He, (rho_zero_leb _ _ _ _ _ Hr).
  rewrite tmp_m_eq, tmp_p_eq.
  revert Hr. generalize (rho (PPM_locals q_im2 q_im1 q_i q_ip1 q_ip2))
    (dqf_minus (PPM_locals q_im2 q_im1 q_i q_ip1 q_ip2))
    (dqf_plus (PPM_locals q_im2 q_im1 q_i q_ip1 q_ip2)).
  intros r m p Hr. rewrite Hr. split; ring.
Qed.

(** X6 (smooth extremum kept): when an extremum is detected, the four
    curvature estimates share one sign, the division is performed and the
    combined curvature is at most 1.25 times each of the three second
    differences in magnitude, the ratio is 1 and both output states are
    the face values of step 2a, untouched. *)
Theorem smooth_extremum_preserved (q_im2 q_im1 q_i q_ip1 q_ip2 : Real) :
  let L := PPM_locals q_im2 q_im1 q_i q_ip1 q_ip2 in
  let out := PPM q_im2 q_im1 q_i q_ip1 q_ip2 in
  extremum_detected L = true -> smooth L = true -> divides L = true ->
  Qabs (d2qf L) <= 1.25 * Qabs (d2qc_im1 L) ->
  Qabs (d2qf L) <= 1.25 * Qabs (d2qc L) ->
  Qabs (d2qf L) <= 1.25 * Qabs (d2qc_ip1 L) ->
  rho L == 1 /\ qr_i out = dph L /\ ql_ip1 out = dph_ip1 L.
Proof.
  cbv zeta. intros He Hs Hd B1 B2 B3.
  assert (Hr : rho (PPM_locals q_im2 q_im1 q_i q_ip1 q_ip2) == 1).
  { pose proof (divides_nonzero _ _ _ _ _ Hd) as Hnz.
    rewrite rho_eq, Hd, qe_smooth, Hs, qd_eq. rewrite qd_eq in Hnz.
    assert (Hmin : Qmin (Qmin (1.25 * Qabs (d2qc_im1 (PPM_locals q_im2 q_im1 q_i q_ip1 q_ip2)))
                      (1.25 * Qabs (d2qc (PPM_locals q_im2 q_im1 q_i q_ip1 q_ip2))))
                   (Qmin (1.25 * Qabs (d2qc_ip1 (PPM_locals q_im2 q_im1 q_i q_ip1 q_ip2)))
                      (Qabs (d2qf (PPM_locals q_im2 q_im1 q_i q_ip1 q_ip2))))
                   == Qabs (d2qf (PPM_locals q_im2 q_im1 q_i q_ip1 q_ip2))).
    { rewrite (Q.min_r (1.25 * Qabs (d2qc_ip1 _))) by assumption.
      apply Q.min_r. now apply Q.min_glb. }
    rewrite Hmin, SIGN_times_abs. field. exact Hnz. }
  split; [exact Hr |].
  assert (Hl : (rho (PPM_locals q_im2 q_im1 q_i q_ip1 q_ip2) <=? 1.0 - 1.0e-12)
               = false)
    by (apply Qleb_false; rewrite Hr; qlra).
  unfold ql_ip1, qr_i, PPM. cbn [fst snd].
  rewrite qminus_eq, qplus_eq, He, Hl. split; reflexivity.
Qed.

Lemma square_pos_of_product x y : 0.0 < x * y -> 0 < x * x /\ 0 < y * y.
Proof.
  intros H. destruct (Qlt_le_dec 0 x), (Qlt_le_dec 0 y); split; qnra.
Qed.

(** X7 (no interior extremum after clipping): when no extremum is
    detected, the two final one-sided differences have the same strict
    sign and neither exceeds twice the other in magnitude, which is the
    condition for the parabola through the two states to be monotone
    across the cell. *)
Theorem no_extremum_parabola_monotone (q_im2 q_im1 q_i q_ip1 q_ip2 : Real) :
  let out := PPM q_im2 q_im1 q_i q_ip1 q_ip2 in
  extremum_detected (PPM_locals q_im2 q_im1 q_i q_ip1 q_ip2) = false ->
  0 < (q_i - qr_i out) * (ql_ip1 out - q_i)
  /\ Qabs (q_i - qr_i out) <= 2 * Qabs (ql_ip1 out - q_i)
  /\ Qabs (ql_ip1 out - q_i) <= 2 * Qabs (q_i - qr_i out).
Proof.
  cbv zeta. intros He. unfold ql_ip1, qr_i, PPM. cbn [fst snd].
  rewrite qminus_eq, qplus_eq, He, tmp2_m_eq, tmp2_p_eq.
  unfold extremum_detected in He. apply orb_false_iff in He.
  destruct He as [Ha _]. apply Qleb_false in Ha. rewrite qa_tmp_eq in Ha.
  unfold clips_minus, clips_plus. revert Ha.
  rewrite dqf_minus_eq, dqf_plus_eq.
  generalize (dph (PPM_locals q_im2 q_im1 q_i q_ip1 q_ip2))
    (dph_ip1 (PPM_locals q_im2 q_im1 q_i q_ip1 q_ip2)).
  intros fm fp Ha.
  destruct (square_pos_of_product _ _ Ha) as [Hs1 Hs2].
  destruct (Qgeb (Qabs (q_i - fm)) _) eqn:Em;
    [apply Qgeb_true in Em | apply Qgeb_false in Em];
    (destruct (Qgeb (Qabs (fp - q_i)) _) eqn:Ep;
      [apply Qgeb_true in Ep | apply Qgeb_false in Ep]);
    revert Em Ep; qelim; intros; repeat split; qnra.
Qed.


(** X9 (no blow-up): on every stencil both output states are at most
    twice the largest magnitude of the stencil. *)
Theorem PPM_bounded_by_scale (a b c d e : Real) :
  let M := stencil_scale a b c d e in
  Qabs (ql_ip1 (PPM a b c d e)) <= 2 * M
  /\ Qabs (qr_i (PPM a b c d e)) <= 2 * M.
Proof.
  cbv zeta. unfold ql_ip1, qr_i, PPM. cbn [fst snd].
  destruct (qminus_between a b c d e) as [M1 M2].
  destruct (qplus_between a b c d e) as [P1 P2].
  destruct (faces_bound a b c d e) as [F1 F2].
  destruct (stencil_scale_bounds a b c d e) as (_ & _ & Hc & _ & _).
  revert M1 M2 P1 P2 F1 F2 Hc. clear.
  generalize (qminus (PPM_locals a b c d e)) (qplus (PPM_locals a b c d e))
    (dph (PPM_locals a b c d e)) (dph_ip1 (PPM_locals a b c d e))
    (stencil_scale a b c d e).
  intros m p fm fp M. qelim; intros; split; qlra.
Qed.

(** ** More on the drivers *)

(** Both buffers after a sweep, cell by cell. *)
Lemma sweep_cells ax k j il iu q s n p :
  fst (sweep ax k j il iu q s) n p =
    (if ((0 <=? n) && (n <? GetDim q 4)
         && ((il <=? p - left_shift ax) && (p - left_shift ax <=? iu)))%Z
     then ql_ip1 (PPM_along ax q n k j (p - left_shift ax))
     else fst s n p)
  /\ snd (sweep ax k j il iu q s) n p =
    (if ((0 <=? n) && (n <? GetDim q 4) && ((il <=? p) && (p <=? iu)))%Z
     then qr_i (PPM_along ax q n k j p)
     else snd s n p).
Proof.
  unfold sweep, for_lt, par_for_inner.
  destruct (loop_nest_spec
              (fun n i => ql_ip1 (PPM_along ax q n k j i))
              (fun n i => qr_i (PPM_along ax q n k j i))
              (left_shift ax) (Z.to_nat (iu - il + 1)) il
              (Z.to_nat (GetDim q 4 - 0)) 0 s n p) as [Hl Hr].
  cbv beta zeta in Hl, Hr. rewrite Hl, Hr. clear Hl Hr.
  split.
  - destruct (Z.leb_spec 0 n),
      (Z.ltb_spec n (0 + Z.of_nat (Z.to_nat (GetDim q 4 - 0)))),
      (Z.ltb_spec n (GetDim q 4)),
      (Z.leb_spec il (p - left_shift ax)),
      (Z.ltb_spec (p - left_shift ax) (il + Z.of_nat (Z.to_nat (iu - il + 1)))),
      (Z.leb_spec (p - left_shift ax) iu);
      cbn [andb]; trivial; lia.
  - destruct (Z.leb_spec 0 n),
      (Z.ltb_spec n (0 + Z.of_nat (Z.to_nat (GetDim q 4 - 0)))),
      (Z.ltb_spec n (GetDim q 4)),
      (Z.leb_spec il p),
      (Z.ltb_spec p (il + Z.of_nat (Z.to_nat (iu - il + 1)))),
      (Z.leb_spec p iu);
      cbn [andb]; trivial; lia.
Qed.

(** The cells a driver leaves alone, in either buffer. *)
Lemma driver_untouched (ax : Axis) (q : FieldArray) (k j il iu : Z)
    (ql qr : ScratchPad2D) (n p : Z) :
  let s := driver ax k j il iu q ql qr in
  (~ (0 <= n < GetDim q 4 /\ il <= p - left_shift ax <= iu)%Z ->
   fst s n p = ql n p)
  /\ (~ (0 <= n < GetDim q 4 /\ il <= p <= iu)%Z -> snd s n p = qr n p).
Proof.
  cbv zeta. rewrite driver_sweep.
  destruct (sweep_cells ax k j il iu q (ql, qr) n p) as [Hl Hr].
  rewrite Hl, Hr. cbn [fst snd]. split; intros H.
  - destruct (Z.leb_spec 0 n), (Z.ltb_spec n (GetDim q 4)),
      (Z.leb_spec il (p - left_shift ax)), (Z.leb_spec (p - left_shift ax) iu);
      cbn [andb]; trivial; lia.
  - destruct (Z.leb_spec 0 n), (Z.ltb_spec n (GetDim q 4)),
      (Z.leb_spec il p), (Z.leb_spec p iu); cbn [andb]; trivial; lia.
Qed.

(** X10 (frame of the drivers): a driver leaves every cell of the left
    buffer outside variables [0, nvar) and indices
    [il + shift, iu + shift] as it was ([shift] is 1 for
    [PiecewiseParabolicX1] and 0 for the other two), and every cell of the
    right buffer outside variables [0, nvar) and indices [il, iu]. *)
Theorem drivers_frame (ax : Axis) (q : FieldArray) (k j il iu : Z)
    (ql qr : ScratchPad2D) (n p : Z) :
  let s := driver ax k j il iu q ql qr in
  (~ (0 <= n < GetDim q 4 /\ il <= p - left_shift ax <= iu)%Z ->
   fst s n p = ql n p)
  /\ (~ (0 <= n < GetDim q 4 /\ il <= p <= iu)%Z -> snd s n p = qr n p).
Proof. apply driver_untouched. Qed.

Lemma for_count_skip count lo (body : Z -> Buffers -> Buffers) s :
  (forall n s', body n s' = s') -> for_count count lo body s = s.
Proof.
  intros H. revert lo s. induction count as [|c IH]; intros lo s; cbn.
  - reflexivity.
  - now rewrite H, IH.
Qed.

(** X11 (empty range): with [iu < il], or with no variable, a driver
    returns both buffers unchanged. *)
Theorem drivers_empty_range (ax : Axis) (q : FieldArray) (k j il iu : Z)
    (ql qr : ScratchPad2D) :
  (iu < il \/ GetDim q 4 <= 0)%Z ->
  driver ax k j il iu q ql qr = (ql, qr).
Proof.
  intros H. rewrite driver_sweep. unfold sweep, for_lt, par_for_inner.
  destruct H as [H|H].
  - apply for_count_skip. intros n s'.
    now replace (Z.to_nat (iu - il + 1)) with 0%nat by lia.
  - now replace (Z.to_nat (GetDim q 4 - 0)) with 0%nat by lia.
Qed.

(** X12 (both states of a face): after [PiecewiseParabolicX1] over
    [il, iu], index [i] of [il + 1 .. iu] holds both states of the face
    between cells [i - 1] and [i]: the left state of cell [i - 1] in the
    left buffer and the right state of cell [i] in the right buffer; index
    [il] of the left buffer and index [iu + 1] of the right buffer are not
    written.  This is why the source asks for a call over
    [is - 1, ie + 1] to get both states over [is, ie]. *)
Theorem PiecewiseParabolicX1_both_states (q : FieldArray) (k j il iu : Z)
    (ql qr : ScratchPad2D) (n i : Z) :
  (0 <= n < GetDim q 4)%Z -> (il + 1 <= i <= iu)%Z ->
  let s := PiecewiseParabolicX1 k j il iu q ql qr in
  fst s n i
    = ql_ip1 (PPM (elem q n k j (i - 1 - 2)) (elem q n k j (i - 1 - 1))
                  (elem q n k j (i - 1))
                  (elem q n k j (i - 1 + 1)) (elem q n k j (i - 1 + 2)))
  /\ snd s n i
    = qr_i (PPM (elem q n k j (i - 2)) (elem q n k j (i - 1)) (elem q n k j i)
                (elem q n k j (i + 1)) (elem q n k j (i + 2)))
  /\ fst s n il = ql n il
  /\ snd s n (iu + 1)%Z = qr n (iu + 1)%Z.
Proof.
  intros Hn Hi. cbv zeta.
  destruct (drivers_indexing_aux q k j il iu ql qr n (i - 1) Hn
              ltac:(lia)) as ((Hl & _) & _).
  destruct (drivers_indexing_aux q k j il iu ql qr n i Hn ltac:(lia))
    as ((_ & Hr) & _).
  cbv zeta in Hl, Hr. replace (i - 1 + 1)%Z with i in Hl at 1 by lia.
  split; [exact Hl | split; [exact Hr |]].
  change (PiecewiseParabolicX1 k j il iu q ql qr)
    with (driver AxisX1 k j il iu q ql qr).
  split.
  - apply (driver_untouched AxisX1). cbn [left_shift]. lia.
  - apply (driver_untouched AxisX1). lia.
Qed.

(** X13 (idempotence): running a driver again on its own output buffers
    changes no cell. *)
Theorem drivers_idempotent (ax : Axis) (q : FieldArray) (k j il iu : Z)
    (ql qr : ScratchPad2D) (n p : Z) :
  let s1 := driver ax k j il iu q ql qr in
  let s2 := driver ax k j il iu q (fst s1) (snd s1) in
  fst s2 n p = fst s1 n p /\ snd s2 n p = snd s1 n p.
Proof.
  cbv zeta. rewrite !driver_sweep.
  destruct (sweep_cells ax k j il iu q (ql, qr) n p) as [Hl Hr].
  destruct (sweep_cells ax k j il iu q
              (fst (sweep ax k j il iu q (ql, qr)),
               snd (sweep ax k j il iu q (ql, qr))) n p) as [Hl2 Hr2].
  rewrite Hl2, Hr2. cbn [fst snd]. rewrite Hl, Hr. clear.
  split; match goal with |- (if ?c then _ else _) = _ => destruct c end;
    reflexivity.
Qed.

(** X14 (axis permutation, any field): cell [c] of line (k, j) gets from
    [PiecewiseParabolicX1] the states that [PiecewiseParabolicX2], called
    for row [c] on the field with its j and i axes exchanged, stores at
    index [j]; and [PiecewiseParabolicX2] is [PiecewiseParabolicX3] on the
    field with its k and j axes exchanged. *)
Theorem drivers_axis_permutation (q : FieldArray) (k j c il iu il' iu' : Z)
    (ql qr ql' qr' : ScratchPad2D) (n : Z) :
  (0 <= n < GetDim q 4)%Z -> (il <= c <= iu)%Z -> (il' <= j <= iu')%Z ->
  let s1 := PiecewiseParabolicX1 k j il iu q ql qr in
  let s2 := PiecewiseParabolicX2 k c il' iu' (transpose_ji q) ql' qr' in
  (fst s1 n (c + 1)%Z = fst s2 n j /\ snd s1 n c = snd s2 n j)
  /\ PiecewiseParabolicX2 k c il' iu' (transpose_ji q) ql' qr'
     = PiecewiseParabolicX3 c k il' iu' (transpose_kj (transpose_ji q)) ql' qr'.
Proof.
  intros Hn Hc Hj. cbv zeta. split; [| reflexivity].
  destruct (drivers_indexing_aux q k j il iu ql qr n c Hn Hc) as (H1 & _).
  destruct (drivers_indexing_aux (transpose_ji q) k c il' iu' ql' qr' n j
              Hn Hj) as (_ & H2 & _).
  cbv zeta in H1, H2. cbn [elem transpose_ji] in H2.
  destruct H1 as [-> ->], H2 as [-> ->]. split; reflexivity.
Qed.

(** X15 (domain of dependence): two fields with the same number of
    variables that agree on the cells at displacements -2..2 along the
    axis from the indices [il .. iu] of the line give the same buffers:
    a driver reads two ghost cells on either side and nothing else. *)
Theorem drivers_domain_of_dependence (ax : Axis) (q q' : FieldArray)
    (k j il iu : Z) (ql qr : ScratchPad2D) (n p : Z) :
  GetDim q 4 = GetDim q' 4 ->
  (forall n i o, (0 <= n < GetDim q 4)%Z -> (il <= i <= iu)%Z ->
                 (-2 <= o <= 2)%Z ->
                 stencil_at ax q n k j i o = stencil_at ax q' n k j i o) ->
  fst (driver ax k j il iu q ql qr) n p = fst (driver ax k j il iu q' ql qr) n p
  /\ snd (driver ax k j il iu q ql qr) n p
     = snd (driver ax k j il iu q' ql qr) n p.
Proof.
  intros Hd Hq. rewrite !driver_sweep.
  destruct (sweep_cells ax k j il iu q (ql, qr) n p) as [Hl Hr].
  destruct (sweep_cells ax k j il iu q' (ql, qr) n p) as [Hl' Hr'].
  rewrite Hl, Hr, Hl', Hr', <- Hd. clear Hl Hr Hl' Hr'.
  assert (E : forall i, (0 <= n < GetDim q 4)%Z -> (il <= i <= iu)%Z ->
                        PPM_along ax q n k j i = PPM_along ax q' n k j i).
  { intros i Hn Hi. unfold PPM_along.
    now rewrite !(Hq n i) by (trivial; lia). }
  split.
  - destruct (Z.leb_spec 0 n), (Z.ltb_spec n (GetDim q 4)),
      (Z.leb_spec il (p - left_shift ax)), (Z.leb_spec (p - left_shift ax) iu);
      cbn [andb]; trivial. now rewrite E by lia.
  - destruct (Z.leb_spec 0 n), (Z.ltb_spec n (GetDim q 4)),
      (Z.leb_spec il p), (Z.leb_spec p iu); cbn [andb]; trivial.
    now rewrite E by lia.
Qed.

(** ** The additional theorems at concrete inputs *)

Lemma division_guarded_witness :
  let L := PPM_locals (-4) (-1) 0 (-2) (-5) in
  ~ qd L == 0 /\ rho L = qe L / qd L.
Proof.
  apply (division_guarded (-4) (-1) 0 (-2) (-5)). vm_compute. reflexivity.
Defined.

Lemma nonsmooth_extremum_flattened_witness :
  ql_ip1 (PPM 1 2 3 2 1) == 3 /\ qr_i (PPM 1 2 3 2 1) == 3.
Proof.
  apply (nonsmooth_extremum_flattened 1 2 3 2 1); vm_compute; reflexivity.
Defined.

Lemma smooth_extremum_preserved_witness :
  let L := PPM_locals (-4) (-1) 0 (-1) (-4) in
  let out := PPM (-4) (-1) 0 (-1) (-4) in
  rho L == 1 /\ qr_i out = dph L /\ ql_ip1 out = dph_ip1 L.
Proof.
  apply (smooth_extremum_preserved (-4) (-1) 0 (-1) (-4));
    vm_compute; solve [reflexivity | discriminate].
Defined.

Lemma no_extremum_parabola_monotone_witness :
  let out := PPM 100 0 1 100 200 in
  0 < (1 - qr_i out) * (ql_ip1 out - 1)
  /\ Qabs (1 - qr_i out) <= 2 * Qabs (ql_ip1 out - 1)
  /\ Qabs (ql_ip1 out - 1) <= 2 * Qabs (1 - qr_i out).
Proof.
  apply (no_extremum_parabola_monotone 100 0 1 100 200).
  vm_compute. reflexivity.
Defined.


Lemma drivers_frame_witness :
  fst (PiecewiseParabolicX1 0 0 0 0 squares_along_j zero_buffer zero_buffer)
      0%Z 0%Z = 0
  /\ snd (PiecewiseParabolicX1 0 0 0 0 squares_along_j zero_buffer zero_buffer)
        0%Z 1%Z = 0.
Proof.
  destruct (drivers_frame AxisX1 squares_along_j 0 0 0 0
              zero_buffer zero_buffer 0 0) as [Hl _].
  destruct (drivers_frame AxisX1 squares_along_j 0 0 0 0
              zero_buffer zero_buffer 0 1) as [_ Hr].
  split; [apply Hl | apply Hr]; cbn; lia.
Defined.

Lemma drivers_empty_range_witness :
  PiecewiseParabolicX2 0 0 1 0 squares_along_j zero_buffer zero_buffer
  = (zero_buffer, zero_buffer).
Proof.
  apply (drivers_empty_range AxisX2 squares_along_j 0 0 1 0). left. lia.
Defined.

Lemma PiecewiseParabolicX1_both_states_witness :
  let q := line_field AxisX1 1 (fun _ c => inject_Z (c * c)) in
  let s := PiecewiseParabolicX1 0 0 0 2 q zero_buffer zero_buffer in
  fst s 0%Z 1%Z = ql_ip1 (PPM 4 1 0 1 4)
  /\ snd s 0%Z 1%Z = qr_i (PPM 1 0 1 4 9)
  /\ fst s 0%Z 0%Z = 0 /\ snd s 0%Z 3%Z = 0.
Proof.
  intros q.
  assert (Hn : (0 <= 0 < GetDim q 4)%Z) by (cbn; lia).
  assert (Hi : (0 + 1 <= 1 <= 2)%Z) by lia.
  exact (PiecewiseParabolicX1_both_states q 0 0 0 2 zero_buffer zero_buffer
           0 1 Hn Hi).
Defined.

Lemma drivers_axis_permutation_witness :
  let q := line_field AxisX1 1 (fun _ c => inject_Z (c * c)) in
  fst (PiecewiseParabolicX1 0 0 0 0 q zero_buffer zero_buffer) 0%Z (0 + 1)%Z
  = fst (PiecewiseParabolicX2 0 0 0 0 (transpose_ji q) zero_buffer zero_buffer)
        0%Z 0%Z.
Proof.
  intros q.
  assert (Hn : (0 <= 0 < GetDim q 4)%Z) by (cbn; lia).
  assert (Hi : (0 <= 0 <= 0)%Z) by lia.
  exact (proj1 (proj1 (drivers_axis_permutation q 0 0 0 0 0 0 0 zero_buffer
                         zero_buffer zero_buffer zero_buffer 0 Hn Hi Hi))).
Defined.

Lemma drivers_domain_of_dependence_witness :
  fst (PiecewiseParabolicX2 0 0 0 0 squares_along_j zero_buffer zero_buffer)
      0%Z 0%Z
  = fst (PiecewiseParabolicX2 0 0 0 0 squares_clipped zero_buffer zero_buffer)
        0%Z 0%Z.
Proof.
  apply (drivers_domain_of_dependence AxisX2 squares_along_j squares_clipped
           0 0 0 0 zero_buffer zero_buffer 0 0).
  - reflexivity.
  - intros n i o _ _ Ho. cbn.
    assert (E : (Z.abs o <=? 2)%Z = true) by (apply Z.leb_le; lia).
    now rewrite E.
Defined.
